(** * Automation-Stack: the "music brain" of run.py

    A shallow embedding of [src/run.py]: the rating normalizer, the Lidarr
    match scorer and client, the like/dislike store, the post-finish
    harvest worker, the finished-session watcher and the Plex poller,
    followed by the properties established about them.

    Conventions of the embedding.
    - A Python value that is either [None] or a [str] is an
      [option string]; truthiness is written out ([Py.truthy_opt]).
    - Floats are binary64 ([PrimFloat.float]); every arithmetic operation
      and comparison is the IEEE one the interpreter performs.
    - A function that can raise returns a [Py.result]; [try]/[except]
      blocks are pattern matches on it.
    - Everything outside the process (Lidarr, Plex metadata, the clock) is
      an [Env]: replies are a function of the history of events so far and
      of the request, so a server may answer the same request differently
      over time.
    - Log lines are not part of the state. *)

From Stdlib Require Import ZArith Lia String Ascii List Floats.
From stdpp Require Import base option list strings gmap.
Import ListNotations.

(* ===================================================================== *)
(** * Python primitives used by run.py *)
(* ===================================================================== *)

Module Py.

Inductive exn :=
| AttributeError      (* [.get] on something that is not a dict *)
| ValueError          (* [float(s)] on text that is not a number *)
| ZeroDivisionError   (* float division by zero *)
| RequestException    (* [requests.get] / [requests.delete] failed *)
| ParseError.         (* [ET.fromstring] / [resp.json()] failed *)

Inductive result (A : Type) : Type :=
| Ok (a : A)
| Raise (e : exn).
Arguments Ok {A} a.
Arguments Raise {A} e.

Definition bind {A B} (r : result A) (k : A -> result B) : result B :=
  match r with
  | Ok a => k a
  | Raise e => Raise e
  end.

Definition is_ok {A} (r : result A) : bool :=
  match r with Ok _ => true | Raise _ => false end.

(** [bool(s)] for a [str]. *)
Definition truthy (s : string) : bool :=
  match s with
  | EmptyString => false
  | String _ _ => true
  end.

(** [bool(x)] for [x] a [str] or [None]. *)
Definition truthy_opt (o : option string) : bool :=
  match o with
  | Some s => truthy s
  | None => false
  end.

(** [(x or "")]. *)
Definition or_empty (o : option string) : string :=
  match o with
  | Some s => s
  | None => EmptyString
  end.

(** [f"{x}"] for [x] a [str] or [None]. *)
Definition str (o : option string) : string :=
  match o with
  | Some s => s
  | None => "None"%string
  end.

(** [str.lower()] on text made of ASCII characters only: there it moves
    A-Z to a-z and leaves the rest alone.  On other text Python lowers by
    the Unicode case tables, which are no part of the program; the model
    takes that function from its environment ([str_lower] of [Env]) and
    uses [ascii_lower] only to build scenarios whose texts are ASCII. *)
Definition lower_ascii (c : ascii) : ascii :=
  let n := nat_of_ascii c in
  if (65 <=? n)%nat && (n <=? 90)%nat then ascii_of_nat (n + 32) else c.

Fixpoint ascii_lower (s : string) : string :=
  match s with
  | EmptyString => EmptyString
  | String c t => String (lower_ascii c) (ascii_lower t)
  end.

(** [needle in hay] for two [str]. *)
Fixpoint str_in (needle hay : string) : bool :=
  if String.prefix needle hay then true
  else match hay with
       | EmptyString => false
       | String _ t => str_in needle t
       end.

(** [s.split("/")]: never empty. *)
Fixpoint split_slash (s : string) : list string :=
  match s with
  | EmptyString => [EmptyString]
  | String c t =>
      if Ascii.eqb c "/" then EmptyString :: split_slash t
      else match split_slash t with
           | h :: r => String c h :: r
           | [] => [String c EmptyString]
           end
  end.

(** [s.split("/")[-1]]. *)
Definition last_segment (s : string) : string :=
  List.last (split_slash s) EmptyString.

(** A numeric attribute as the code meets it: [None], the empty text,
    text that [float()] rejects, or text (or a number) that [float()]
    turns into [f]. *)
Inductive pynum :=
| NAbsent
| NEmpty
| NBad
| NVal (f : float).

(** [float(v)] for [v] that is not [None]. *)
Definition float_of (v : pynum) : result float :=
  match v with
  | NVal f => Ok f
  | NAbsent | NEmpty | NBad => Raise ValueError
  end.

(** [float(v or d)] where [d] is a number. *)
Definition float_or (d : float) (v : pynum) : result float :=
  match v with
  | NAbsent | NEmpty => Ok d
  | NBad => Raise ValueError
  | NVal f => Ok f
  end.

(** [x / y] on floats: Python raises on a zero divisor (of either sign)
    and otherwise divides as IEEE 754 does. *)
Definition truediv (x y : float) : result float :=
  if (y =? 0)%float then Raise ZeroDivisionError else Ok (x / y)%float.

End Py.

Notation "'let!' x ':=' c1 'in' c2" := (Py.bind c1 (fun x => c2))
  (at level 10, x name, c1 at level 100, c2 at level 200).

(* ===================================================================== *)
(** * Rating normalization *)
(* ===================================================================== *)

Module Rating.
Import Py.

(** The literal [0.1]: the double nearest to one tenth, which is
    3602879701896397 / 2^55. *)
Definition tenth : float := 0x1.999999999999ap-4%float.

(** [abs(f - c) < 0.1], in binary64. *)
Definition near (f c : float) : bool := (abs (f - c) <? tenth)%float.

(** [_normalize_rating(val)]: ["like"], ["dislike"] or [None]. *)
Definition _normalize_rating (val : pynum) : option string :=
  match val with
  | NAbsent => None
  | _ =>
      match float_of val with
      | Raise _ => None
      | Ok f =>
          if near f 10 || near f 5 then Some "like"%string
          else if near f 2 || near f 1 then Some "dislike"%string
          else None
      end
  end.

End Rating.

(* ===================================================================== *)
(** * The world outside the interpreter *)
(* ===================================================================== *)

(** [LIKED_PATH] and [DISLIKED_PATH]. *)
Inductive path := LIKED_PATH | DISLIKED_PATH.

(** What the process does to the outside, in the order it does it. *)
Inductive event :=
| EvSearch (term : string)          (* GET  /api/v1/track/lookup?term=.. *)
| EvDelete (track_id : Z)           (* DELETE /api/v1/track/{id}?deleteFiles=true *)
| EvMetadata (rating_key : string)  (* GET  /library/metadata/{key} *)
| EvSleep (seconds : Z)             (* time.sleep *)
| EvSave (p : path).                (* a JSON file rewritten *)

(** The [album] member of a Lidarr search hit. *)
Inductive album_field :=
| AlbumAbsent                       (* no "album" key: the default [{}] *)
| AlbumObject (title : string)      (* a dict; [str(album.get("title", ""))] *)
| AlbumNotObject.                   (* null, a number, a list, ...: no [.get] *)

(** A dict among the search results, through the accessors the code uses:
    [hit_title] is [str(hit.get("title", ""))], [hit_artistName] is
    [str(hit.get("artistName", ""))], [hit_hasFile] is the truth value of
    [hit.get("hasFile")] and [hit_id] is [hit.get("id")], [None] when the
    key is missing or null. *)
Record hit_object := {
  hit_title : string;
  hit_artistName : string;
  hit_album : album_field;
  hit_hasFile : bool;
  hit_id : option Z;
}.

(** One element of the decoded result list; nothing forces it to be a
    dict. *)
Inductive hit :=
| HitObject (o : hit_object)
| HitNotObject.

Inductive search_body :=
| BodyNotJson                       (* [resp.json()] raises *)
| BodyNotList                       (* decodes, but not to a list *)
| BodyList (results : list hit).

Inductive search_response :=
| SearchFailed                      (* [requests.get] raised *)
| SearchHttp (status : Z) (body : search_body).

Inductive delete_response :=
| DeleteFailed                      (* [requests.delete] raised *)
| DeleteHttp (status : Z).

Inductive metadata_body :=
| XmlMalformed                      (* [ET.fromstring] raises *)
| XmlNoTrack                        (* no <Track> below the root *)
| XmlTrack (userRating : Py.pynum).

Inductive metadata_response :=
| MetadataFailed                    (* [requests.get] raised *)
| MetadataHttp (status : Z) (body : metadata_body).

(** Configuration and the behaviour of everything the process talks to.
    Each reply may depend on all that happened before the request. *)
Record Env := {
  LIDARR_URL : option string;
  LIDARR_API_KEY : option string;
  search_reply : list event -> string -> search_response;
  delete_reply : list event -> Z -> delete_response;
  metadata_reply : list event -> string -> metadata_response;
  utc_now : list event -> string;     (* datetime.now(timezone.utc).isoformat() *)
  str_lower : string -> string;       (* str.lower(), by the Unicode case tables *)
}.

(** An entry of liked.json and one of disliked.json.  A track title can be
    [None] (JSON null) when Plex sent no title. *)
Record like_entry := {
  l_tracks : list (option string);
  l_last_seen : option string;
}.

Record dislike_entry := {
  d_tracks : list (option string);
  d_ban_artist : bool;
  d_last_seen : option string;
}.

(** A JSON file on disk: absent, not decodable, or a JSON object. *)
Inductive file (A : Type) : Type :=
| NoFile
| Unreadable
| Json (doc : gmap string A).
Arguments NoFile {A}.
Arguments Unreadable {A}.
Arguments Json {A} doc.

Record World := {
  liked_json : file like_entry;
  disliked_json : file dislike_entry;
  trace : list event;
}.

Definition log_event (e : event) (w : World) : World :=
  {| liked_json := liked_json w;
     disliked_json := disliked_json w;
     trace := trace w ++ [e] |}.

(** [_load_json_file(path)]: [{}] when the file is missing or cannot be
    decoded. *)
Definition _load_json_file {A} (f : file A) : gmap string A :=
  match f with
  | NoFile => ∅
  | Unreadable => ∅
  | Json doc => doc
  end.

(** The key under which [json.dump] writes a dict key that is a [str] or
    [None]. *)
Definition json_key (k : option string) : string :=
  match k with
  | Some s => s
  | None => "null"%string
  end.

(** [d.get(k)] on a dict decoded from JSON, whose keys are all [str]: the
    key [None] is never found. *)
Definition dict_get {A} (k : option string) (d : gmap string A) : option A :=
  match k with
  | Some s => d !! s
  | None => None
  end.

(** The type of the entries kept in each file. *)
Definition entry_of (p : path) : Type :=
  match p with
  | LIKED_PATH => like_entry
  | DISLIKED_PATH => dislike_entry
  end.

(** [_save_json_file(path, data)].  The file is rewritten whole.  On a
    failing write the source only logs; the disk of the model accepts
    every write. *)
Definition _save_json_file (p : path) : gmap string (entry_of p) -> World -> World :=
  match p with
  | LIKED_PATH => fun data w =>
      {| liked_json := Json data;
         disliked_json := disliked_json w;
         trace := trace w ++ [EvSave LIKED_PATH] |}
  | DISLIKED_PATH => fun data w =>
      {| liked_json := liked_json w;
         disliked_json := Json data;
         trace := trace w ++ [EvSave DISLIKED_PATH] |}
  end.

(* ===================================================================== *)
(** * Lidarr helper functions *)
(* ===================================================================== *)

Module Lidarr.
Import Py.

(** What [lidarr_track_lookup_multi] returns on a match; title and artist
    name are only logged by the caller. *)
Record lidarr_match := {
  m_id : Z;
  m_title : string;
  m_artistName : string;
}.

Definition b2z (b : bool) : Z := if b then 1%Z else 0%Z.

(** [_score_lidarr_candidate(hit, artist_lower, track_lower, album_lower)] *)
Definition _score_lidarr_candidate (env : Env)
    (h : hit) (artist_lower track_lower album_lower : string) : result Z :=
  match h with
  | HitNotObject => Raise AttributeError
  | HitObject o =>
      let hit_title := str_lower env (hit_title o) in
      let hit_artist := str_lower env (hit_artistName o) in
      let! hit_album :=
        match hit_album o with
        | AlbumAbsent => Ok (str_lower env EmptyString)
        | AlbumObject t => Ok (str_lower env t)
        | AlbumNotObject => Raise AttributeError
        end in
      let score := 0%Z in
      let score :=
        if truthy artist_lower && str_in artist_lower hit_artist
        then (score + 2)%Z else score in
      let score :=
        if truthy track_lower && str_in track_lower hit_title
        then (score + 2)%Z else score in
      let score :=
        if truthy album_lower && str_in album_lower hit_album
        then (score + 2)%Z else score in
      let score := if hit_hasFile o then (score + 1)%Z else score in
      Ok score
  end.

(** The loop of [max(iterable, key=...)] after its first element: the
    current maximum is replaced only by a strictly greater key. *)
Fixpoint max_from {A} (key : A -> result Z) (best : A) (best_key : Z)
    (rest : list A) : result A :=
  match rest with
  | [] => Ok best
  | x :: rest' =>
      let! k := key x in
      if (k >? best_key)%Z then max_from key x k rest'
      else max_from key best best_key rest'
  end.

(** [max(results, key=key)]. *)
Definition py_max {A} (key : A -> result Z) (results : list A) : result A :=
  match results with
  | [] => Raise ValueError
  | x :: rest => let! k := key x in max_from key x k rest
  end.

(** The search terms, in the order they are tried. *)
Definition search_terms
    (artist_name track_title album_title guid_raw : option string)
    : list string :=
  let search_terms := [] in
  let search_terms :=
    if truthy_opt artist_name && truthy_opt track_title
    then search_terms ++ [or_empty artist_name +:+ " " +:+ or_empty track_title]
    else search_terms in
  let search_terms :=
    if truthy_opt artist_name && truthy_opt album_title
    then search_terms ++ [or_empty artist_name +:+ " " +:+ or_empty album_title]
    else search_terms in
  let search_terms :=
    if truthy_opt track_title
    then search_terms ++ [or_empty track_title]
    else search_terms in
  let search_terms :=
    if truthy_opt album_title && truthy_opt artist_name
    then search_terms ++ [or_empty album_title +:+ " " +:+ or_empty artist_name]
    else search_terms in
  if truthy_opt guid_raw then
    let guid_tail := last_segment (or_empty guid_raw) in
    if truthy guid_tail && negb (bool_decide (guid_tail ∈ search_terms))
    then search_terms ++ [guid_tail]
    else search_terms
  else search_terms.

(** [best.get("id")], [best.get("title")], [best.get("artistName")]. *)
Definition hit_fields (h : hit) : result hit_object :=
  match h with
  | HitObject o => Ok o
  | HitNotObject => Raise AttributeError
  end.

(** One turn of the [for term in search_terms] loop: [Ok None] stands for
    reaching the end of the body or a [continue], [Ok (Some m)] for
    [return m]. *)
Definition lookup_term (env : Env)
    (artist_lower track_lower album_lower term : string) (w : World)
    : result (option lidarr_match) * World :=
  let w1 := log_event (EvSearch term) w in
  match search_reply env (trace w) term with
  | SearchFailed => (Ok None, w1)
  | SearchHttp status body =>
      if negb (status =? 200)%Z then (Ok None, w1)
      else
        match body with
        | BodyNotJson => (Ok None, w1)
        | BodyNotList => (Ok None, w1)
        | BodyList [] => (Ok None, w1)
        | BodyList results =>
            let key h :=
              _score_lidarr_candidate env h artist_lower track_lower album_lower in
            (let! best := py_max key results in
             let! best_score := key best in
             let! o := hit_fields best in
             if (best_score >=? 2)%Z then
               match hit_id o with
               | Some id => Ok (Some {| m_id := id;
                                        m_title := hit_title o;
                                        m_artistName := hit_artistName o |})
               | None => Ok None
               end
             else Ok None, w1)
        end
  end.

Fixpoint lookup_loop (env : Env)
    (artist_lower track_lower album_lower : string)
    (terms : list string) (w : World)
    : result (option lidarr_match) * World :=
  match terms with
  | [] => (Ok None, w)
  | term :: rest =>
      match lookup_term env artist_lower track_lower album_lower term w with
      | (Ok None, w1) =>
          lookup_loop env artist_lower track_lower album_lower rest w1
      | (r, w1) => (r, w1)
      end
  end.

Definition configured (env : Env) : bool :=
  truthy_opt (LIDARR_URL env) && truthy_opt (LIDARR_API_KEY env).

(** [lidarr_track_lookup_multi(artist_name, track_title, album_title, guid_raw)] *)
Definition lidarr_track_lookup_multi (env : Env)
    (artist_name track_title album_title guid_raw : option string)
    (w : World) : result (option lidarr_match) * World :=
  if negb (configured env) then (Ok None, w)
  else
    let artist_lower := str_lower env (or_empty artist_name) in
    let track_lower := str_lower env (or_empty track_title) in
    let album_lower := str_lower env (or_empty album_title) in
    lookup_loop env artist_lower track_lower album_lower
      (search_terms artist_name track_title album_title guid_raw) w.

(** [lidarr_delete_track(track_id)] *)
Definition lidarr_delete_track (env : Env) (track_id : Z) (w : World)
    : bool * World :=
  if negb (configured env) then (false, w)
  else
    let w1 := log_event (EvDelete track_id) w in
    match delete_reply env (trace w) track_id with
    | DeleteFailed => (false, w1)
    | DeleteHttp status =>
        (bool_decide (status ∈ [200; 202; 204]%Z), w1)
    end.

(** [purge_with_lidarr(artist_name, track_title, album_title, guid_raw)] *)
Definition purge_with_lidarr (env : Env)
    (artist_name track_title album_title guid_raw : option string)
    (w : World) : result unit * World :=
  match lidarr_track_lookup_multi env artist_name track_title album_title
          guid_raw w with
  | (Raise e, w1) => (Raise e, w1)
  | (Ok None, w1) => (Ok tt, w1)
  | (Ok (Some m), w1) =>
      let track_id := m_id m in
      let '(ok, w2) := lidarr_delete_track env track_id w1 in
      (Ok tt, w2)
  end.

End Lidarr.

(* ===================================================================== *)
(** * Like / dislike storage *)
(* ===================================================================== *)

Module Store.
Import Py.

(** [add_like(artist, track)] *)
Definition add_like (env : Env) (artist track : option string) (w : World)
    : World :=
  let liked := _load_json_file (liked_json w) in
  let entry :=
    default {| l_tracks := []; l_last_seen := None |} (dict_get artist liked) in
  let tracks :=
    if bool_decide (track ∈ l_tracks entry) then l_tracks entry
    else l_tracks entry ++ [track] in
  let entry :=
    {| l_tracks := tracks; l_last_seen := Some (utc_now env (trace w)) |} in
  let liked := <[json_key artist := entry]> liked in
  _save_json_file LIKED_PATH liked w.

(** [add_dislike(artist, track, ban_artist=False)] *)
Definition add_dislike (env : Env) (artist track : option string)
    (ban_artist : bool) (w : World) : World :=
  let disliked := _load_json_file (disliked_json w) in
  let entry :=
    default {| d_tracks := []; d_ban_artist := false; d_last_seen := None |}
      (dict_get artist disliked) in
  let tracks :=
    if bool_decide (track ∈ d_tracks entry) then d_tracks entry
    else d_tracks entry ++ [track] in
  let ban := if ban_artist then true else d_ban_artist entry in
  let entry :=
    {| d_tracks := tracks; d_ban_artist := ban;
       d_last_seen := Some (utc_now env (trace w)) |} in
  let disliked := <[json_key artist := entry]> disliked in
  _save_json_file DISLIKED_PATH disliked w.

(** [_act_on_rating(artist, track, album, guid_raw, normalized_bucket)] *)
Definition _act_on_rating (env : Env)
    (artist track album guid_raw normalized_bucket : option string)
    (w : World) : result bool * World :=
  if bool_decide (normalized_bucket = Some "like"%string) then
    (Ok true, add_like env artist track w)
  else if bool_decide (normalized_bucket = Some "dislike"%string) then
    let w1 := add_dislike env artist track false w in
    match Lidarr.purge_with_lidarr env artist track album guid_raw w1 with
    | (Ok _, w2) => (Ok true, w2)
    | (Raise e, w2) => (Raise e, w2)
    end
  else (Ok false, w).

End Store.

(* ===================================================================== *)
(** * Snapshots of playing tracks *)
(* ===================================================================== *)

(** The dict stored in [CURRENT_TRACKS] and [RECENTLY_FINISHED]. *)
Record snapshot := {
  artist : option string;
  album : option string;
  track : option string;
  guid : option string;
  ratingKey : option string;
  progress_fraction : float;
  user_rating_raw : Py.pynum;
}.

(* ===================================================================== *)
(** * Post-finish rating harvest *)
(* ===================================================================== *)

Module Harvest.
Import Py.

Definition FINISH_GRACE_SECONDS : Z := 30.

(** [_harvest_final_rating_for_finished_track(session_id, finished_snap)].
    The body sits in one [try]; whatever is raised inside ends the worker
    with a log line, so the worker itself returns nothing and never
    raises. *)
Definition _harvest_final_rating_for_finished_track (env : Env)
    (session_id : string) (finished_snap : snapshot) (w : World) : World :=
  let rating_key := ratingKey finished_snap in
  let artist := artist finished_snap in
  let track := track finished_snap in
  let album := album finished_snap in
  let guid_raw := guid finished_snap in
  if negb (truthy_opt rating_key) then w
  else
    let w := log_event (EvSleep FINISH_GRACE_SECONDS) w in
    let r := metadata_reply env (trace w) (or_empty rating_key) in
    let w := log_event (EvMetadata (or_empty rating_key)) w in
    match r with
    | MetadataFailed => w
    | MetadataHttp status body =>
        if negb (status =? 200)%Z then w
        else
          match body with
          | XmlMalformed => w
          | XmlNoTrack => w
          | XmlTrack raw_final_rating =>
              let normalized_bucket :=
                Rating._normalize_rating raw_final_rating in
              snd (Store._act_on_rating env artist track album guid_raw
                     normalized_bucket w)
          end
    end.

End Harvest.

(* ===================================================================== *)
(** * The finished-session watcher *)
(* ===================================================================== *)

Module Watcher.

(** [d[k] = v] on a dict, which keeps insertion order: an existing key
    keeps its place, a new key goes last. *)
Fixpoint dict_set (k : string) (v : snapshot) (d : list (string * snapshot))
    : list (string * snapshot) :=
  match d with
  | [] => [(k, v)]
  | (k', v') :: rest =>
      if String.eqb k k' then (k, v) :: rest
      else (k', v') :: dict_set k v rest
  end.

(** Where the watcher thread stands inside [finished_watcher_loop]. *)
Inductive pc :=
| Idle                                           (* in [time.sleep(5)] *)
| Scanning (todo : list (string * snapshot))     (* at the head of the [for] *)
| Started (session_id : string) (todo : list (string * snapshot)).
    (* [t.start()] done, [_FINISHED_ALREADY_SCHEDULED.add] not yet *)

Record state := {
  RECENTLY_FINISHED : list (string * snapshot);
  _FINISHED_ALREADY_SCHEDULED : gset string;
  at_pc : pc;
  started : list (string * snapshot);   (* workers launched, oldest first *)
}.

Definition set_pc (p : pc) (s : state) : state :=
  {| RECENTLY_FINISHED := RECENTLY_FINISHED s;
     _FINISHED_ALREADY_SCHEDULED := _FINISHED_ALREADY_SCHEDULED s;
     at_pc := p;
     started := started s |}.

(** The next atomic action of the watcher thread. *)
Definition watcher_advance (s : state) : state :=
  match at_pc s with
  | Idle =>
      (* for session_id, snap in list(RECENTLY_FINISHED.items()) *)
      set_pc (Scanning (RECENTLY_FINISHED s)) s
  | Scanning [] =>
      set_pc Idle s
  | Scanning ((session_id, snap) :: todo) =>
      if bool_decide (session_id ∈ _FINISHED_ALREADY_SCHEDULED s)
      then set_pc (Scanning todo) s                       (* continue *)
      else
        {| RECENTLY_FINISHED := RECENTLY_FINISHED s;
           _FINISHED_ALREADY_SCHEDULED := _FINISHED_ALREADY_SCHEDULED s;
           at_pc := Started session_id todo;
           started := started s ++ [(session_id, snap)] |}   (* t.start() *)
  | Started session_id todo =>
      {| RECENTLY_FINISHED := RECENTLY_FINISHED s;
         _FINISHED_ALREADY_SCHEDULED :=
           {[session_id]} ∪ _FINISHED_ALREADY_SCHEDULED s;
         at_pc := Scanning todo;
         started := started s |}
  end.

(** An exception while logging or creating the thread, before it runs:
    the [except] clause ends the scan. *)
Definition watcher_raise (s : state) : state :=
  match at_pc s with
  | Scanning (_ :: _) => set_pc Idle s
  | _ => s
  end.

(** The poller thread doing [RECENTLY_FINISHED[e] = snap]. *)
Definition poller_write (e : string) (snap : snapshot) (s : state) : state :=
  {| RECENTLY_FINISHED := dict_set e snap (RECENTLY_FINISHED s);
     _FINISHED_ALREADY_SCHEDULED := _FINISHED_ALREADY_SCHEDULED s;
     at_pc := at_pc s;
     started := started s |}.

(** One atomic action of one of the two threads. *)
Inductive action :=
| WatcherAdvances
| WatcherRaises
| PollerWrites (e : string) (snap : snapshot).

Definition exec (a : action) (s : state) : state :=
  match a with
  | WatcherAdvances => watcher_advance s
  | WatcherRaises => watcher_raise s
  | PollerWrites e snap => poller_write e snap s
  end.

(** An interleaving is the list of actions in the order they happen. *)
Fixpoint run (schedule : list action) (s : state) : state :=
  match schedule with
  | [] => s
  | a :: rest => run rest (exec a s)
  end.

Definition init : state :=
  {| RECENTLY_FINISHED := [];
     _FINISHED_ALREADY_SCHEDULED := ∅;
     at_pc := Idle;
     started := [] |}.

(** How many workers were launched for [sid]. *)
Definition launches (sid : string) (s : state) : nat :=
  length (filter (λ p, p.1 = sid) (started s)).

End Watcher.

(* ===================================================================== *)
(** * The Plex poller *)
(* ===================================================================== *)

Module Poller.
Import Py.

(** The attributes read from one <Track> element. *)
Record attrib := {
  a_grandparentTitle : option string;
  a_parentTitle : option string;
  a_title : option string;
  a_guid : option string;
  a_ratingKey : option string;
  a_viewOffset : pynum;
  a_duration : pynum;
  a_userRating : pynum;
}.

(** [try: frac = float(view_offset or 0) / float(duration or 1)]
    [except Exception: frac = 0.0] *)
Definition progress (view_offset duration : pynum) : float :=
  match (let! x := float_or 0 view_offset in
         let! y := float_or 1 duration in
         truediv x y) with
  | Ok frac => frac
  | Raise _ => 0%float
  end.

(** The session id and the dict stored for one <Track>. *)
Definition observe (a : attrib) : string * snapshot :=
  let artist := a_grandparentTitle a in
  let album_title := a_parentTitle a in
  let title := a_title a in
  let guid_raw := a_guid a in
  let rating_key := a_ratingKey a in
  let frac := progress (a_viewOffset a) (a_duration a) in
  let sid :=
    if truthy_opt rating_key then or_empty rating_key
    else str artist +:+ "-" +:+ str title in
  (sid,
   {| artist := artist;
      album := album_title;
      track := title;
      guid := guid_raw;
      ratingKey := rating_key;
      progress_fraction := frac;
      user_rating_raw := a_userRating a |}).

Record state := {
  CURRENT_TRACKS : gmap string snapshot;
  RECENTLY_FINISHED : gmap string snapshot;
  last_active : gset string;
}.

(** [for track_el in root.findall(".//Track")] *)
Fixpoint scan_tracks (tracks : list attrib)
    (current : gmap string snapshot) (seen_now : gset string)
    : gmap string snapshot * gset string :=
  match tracks with
  | [] => (current, seen_now)
  | a :: rest =>
      let '(sid, snap) := observe a in
      scan_tracks rest (<[sid := snap]> current) ({[sid]} ∪ seen_now)
  end.

(** [for e in ended]: a snapshot dict is never empty, so [if not snap]
    only skips a missing key. *)
Fixpoint mark_ended (ended : list string) (current : gmap string snapshot)
    (finished : gmap string snapshot) : gmap string snapshot :=
  match ended with
  | [] => finished
  | e :: rest =>
      match current !! e with
      | None => mark_ended rest current finished
      | Some snap => mark_ended rest current (<[e := snap]> finished)
      end
  end.

Inductive sessions_body :=
| SessionsMalformed                  (* [ET.fromstring] raises *)
| SessionsXml (tracks : list attrib).

Inductive sessions_response :=
| SessionsFailed                     (* [requests.get] raised *)
| SessionsHttp (status : Z) (body : sessions_body).

(** The <Track> elements of a cycle that gets through: status 200 and
    parsable XML. *)
Definition listing (r : sessions_response) : option (list attrib) :=
  match r with
  | SessionsHttp status (SessionsXml tracks) =>
      if (status =? 200)%Z then Some tracks else None
  | _ => None
  end.

(** One turn of the [while True] loop of [poll_plex_sessions]. *)
Definition poll_once (r : sessions_response) (st : state) : state :=
  match r with
  | SessionsFailed => st
  | SessionsHttp status body =>
      if negb (status =? 200)%Z then st
      else
        match body with
        | SessionsMalformed => st
        | SessionsXml tracks =>
            let '(current, seen_now) :=
              scan_tracks tracks (CURRENT_TRACKS st) ∅ in
            let ended := last_active st ∖ seen_now in
            {| CURRENT_TRACKS := current;
               RECENTLY_FINISHED :=
                 mark_ended (elements ended) current (RECENTLY_FINISHED st);
               last_active := seen_now |}
        end
  end.

Definition init : state :=
  {| CURRENT_TRACKS := ∅; RECENTLY_FINISHED := ∅; last_active := ∅ |}.

(** The session ids of a listing. *)
Definition session_ids (tracks : list attrib) : list string :=
  map (λ a, (observe a).1) tracks.

End Poller.

(* ===================================================================== *)
(** * Vocabulary of the properties *)
(* ===================================================================== *)

(** [known] occurs in [field] once both are lowered. *)
Definition ci_contains (env : Env) (known field : string) : Prop :=
  exists pre post,
    str_lower env field = pre +:+ str_lower env known +:+ post.

(** Lowering turns the empty text, and no other, into the empty text:
    [str.lower()] maps every character to at least one character. *)
Definition lowering_keeps_empty (env : Env) : Prop :=
  forall s, Py.truthy (str_lower env s) = Py.truthy s.

(** The album title of a search hit, empty when it has no album. *)
Definition album_title (o : hit_object) : string :=
  match hit_album o with
  | AlbumObject t => t
  | AlbumAbsent | AlbumNotObject => EmptyString
  end.

(** A search hit of the shape the scorer expects: a dict whose album, when
    there is one, is a dict too. *)
Definition candidate (h : hit) : Prop :=
  exists o, h = HitObject o /\ hit_album o <> AlbumNotObject.

(** The score of a hit against the fields of the finished track, as
    [lidarr_track_lookup_multi] computes it: the known fields are lowered
    before they reach the scorer. *)
Definition match_score (env : Env) (artist title album : string) (h : hit)
    : Py.result Z :=
  Lidarr._score_lidarr_candidate env h
    (str_lower env artist) (str_lower env title) (str_lower env album).

(** The world [w] once the events [evs] have happened, files untouched. *)
Definition after (w : World) (evs : list event) : World :=
  {| liked_json := liked_json w;
     disliked_json := disliked_json w;
     trace := trace w ++ evs |}.

(** The ids for which a delete request was issued, oldest first. *)
Definition delete_requests (evs : list event) : list Z :=
  omap (fun e => match e with EvDelete id => Some id | _ => None end) evs.

(** Every result list Lidarr sends holds candidates only. *)
Definition well_formed_replies (env : Env) : Prop :=
  forall hist term status results,
    search_reply env hist term = SearchHttp status (BodyList results) ->
    Forall candidate results.

(** The results a search yields: none when the request fails, the status
    is not 200, or the body is not a non-empty JSON list. *)
Definition results_of (r : search_response) : option (list hit) :=
  match r with
  | SearchHttp status (BodyList (h :: rest)) =>
      if (status =? 200)%Z then Some (h :: rest) else None
  | _ => None
  end.

(** The search for [term], issued after [hist], does not end the lookup:
    it yields no result, or its best-scoring hit scores under 2 or carries
    no id. *)
Definition passed_over (env : Env) (artist title album : string)
    (hist : list event) (term : string) : Prop :=
  match results_of (search_reply env hist term) with
  | None => True
  | Some results =>
      exists o k,
        Lidarr.py_max (match_score env artist title album) results = Py.Ok (HitObject o) /\
        match_score env artist title album (HitObject o) = Py.Ok k /\
        ((k < 2)%Z \/ hit_id o = None)
  end.

(** The term built from two fields, when both are there. *)
Definition joined (x y : option string) : option string :=
  if Py.truthy_opt x && Py.truthy_opt y
  then Some (Py.or_empty x +:+ " " +:+ Py.or_empty y)
  else None.

(** The search terms as the specification lists them: artist+title,
    artist+album, title alone, album+artist, each only when its fields are
    non-empty, then the last segment of the guid when there is a guid and
    the segment is non-empty and not yet among the terms. *)
Definition planned_terms (artist title album guid : option string)
    : list string :=
  let base :=
    omap id [joined artist title;
             joined artist album;
             (if Py.truthy_opt title then Some (Py.or_empty title) else None);
             joined album artist] in
  base ++
  match guid with
  | Some g =>
      if decide (g <> EmptyString /\ Py.last_segment g <> EmptyString
                 /\ Py.last_segment g ∉ base)
      then [Py.last_segment g] else []
  | None => []
  end.

(** The track list and the last-seen stamp stored for an artist. *)
Definition liked_tracks (artist : option string) (f : file like_entry)
    : list (option string) :=
  match _load_json_file f !! json_key artist with
  | Some e => l_tracks e
  | None => []
  end.

Definition liked_last_seen (artist : option string) (f : file like_entry)
    : option string :=
  match _load_json_file f !! json_key artist with
  | Some e => l_last_seen e
  | None => None
  end.

Definition disliked_tracks (artist : option string) (f : file dislike_entry)
    : list (option string) :=
  match _load_json_file f !! json_key artist with
  | Some e => d_tracks e
  | None => []
  end.

Definition disliked_last_seen (artist : option string) (f : file dislike_entry)
    : option string :=
  match _load_json_file f !! json_key artist with
  | Some e => d_last_seen e
  | None => None
  end.

(** How often [x] occurs in [l]. *)
Definition occurrences {A} `{EqDecision A} (x : A) (l : list A) : nat :=
  length (filter (fun y => y = x) l).

(** The snapshot a listing leaves for [sid]: that of the last <Track>
    carrying this session id. *)
Definition latest (sid : string) (tracks : list Poller.attrib)
    : option snapshot :=
  last (omap (fun a => if decide ((Poller.observe a).1 = sid)
                       then Some (Poller.observe a).2 else None) tracks).

(** [if track not in tracks: tracks.append(track)] *)
Definition appended (track : option string) (l : list (option string))
    : list (option string) :=
  if bool_decide (track ∈ l) then l else l ++ [track].

(** The list [add_like] and [add_dislike] start from: the stored one,
    except that the artist [None] is never found among the keys of the
    decoded file. *)
Definition found_tracks (artist : option string) (stored : list (option string))
    : list (option string) :=
  match artist with
  | Some _ => stored
  | None => []
  end.

(** The <Track> of session "123" from the end-to-end scenario, and a
    session listing that gets through. *)
Definition session_123 : Poller.attrib :=
  {| Poller.a_grandparentTitle := Some "Boards of Canada";
     Poller.a_parentTitle := Some "Music Has the Right to Children";
     Poller.a_title := Some "Roygbiv";
     Poller.a_guid := Some "plex://track/5d07cd8e403c640290f6d5f1";
     Poller.a_ratingKey := Some "123";
     Poller.a_viewOffset := Py.NVal 95;
     Poller.a_duration := Py.NVal 100;
     Poller.a_userRating := Py.NAbsent |}.

Definition ok_listing (tracks : list Poller.attrib) : Poller.sessions_response :=
  Poller.SessionsHttp 200 (Poller.SessionsXml tracks).

(** What holds of the watcher at every moment: no session id was given
    two workers, and the ids with a worker are the ids marked scheduled,
    plus the one whose worker has just been started and is about to be
    marked. *)
Definition watcher_inv (s : Watcher.state) : Prop :=
  NoDup (Watcher.started s).*1 /\
  match Watcher.at_pc s with
  | Watcher.Started sid _ =>
      (sid ∉ Watcher._FINISHED_ALREADY_SCHEDULED s) /\
      (forall x, x ∈ (Watcher.started s).*1 <->
                 x = sid \/ x ∈ Watcher._FINISHED_ALREADY_SCHEDULED s)
  | _ =>
      (forall x, x ∈ (Watcher.started s).*1 <->
                 x ∈ Watcher._FINISHED_ALREADY_SCHEDULED s)
  end.

(** ** Doubles as exact numbers *)

(** The literal [0.1] and the number [1.0] as the interpreter holds them:
    sign, mantissa and exponent. *)
Definition tenth_m : positive := 7205759403792794%positive.
Definition tenth_e : Z := (-56)%Z.
Definition tenth_sf : spec_float := S754_finite false tenth_m tenth_e.

(** The exact value of a finite double, counted in units of 2^-1074, the
    smallest positive double: every finite double is a whole number of
    them.  Infinities and NaN have no value. *)
Definition units (f : float) : option Z :=
  match Prim2SF f with
  | S754_zero _ => Some 0%Z
  | S754_finite s m e => Some (cond_Zopp s (Zpos m) * 2 ^ (e + 1074))%Z
  | S754_infinity _ | S754_nan => None
  end.

(** "Within ±0.1 of [c]" on exact values: |f - c| < 1/10, both sides
    multiplied by 10 * 2^1074. *)
Definition within_tenth_of (c : Z) (f : float) : bool :=
  match units f with
  | Some u => (10 * Z.abs (u - c * 2 ^ 1074) <? 2 ^ 1074)%Z
  | None => false
  end.

(** The same with "at most" in place of "less than". *)
Definition at_most_tenth_from (c : Z) (f : float) : bool :=
  match units f with
  | Some u => (10 * Z.abs (u - c * 2 ^ 1074) <=? 2 ^ 1074)%Z
  | None => false
  end.

(** The normalizer as the specification words it: absent or unparsable
    gives unrated; within ±0.1 of 10 or 5 gives like; within ±0.1 of 2 or
    1 gives dislike; anything else gives unrated. *)
Definition normalize_spec (val : Py.pynum) : option string :=
  match val with
  | Py.NAbsent | Py.NEmpty | Py.NBad => None
  | Py.NVal f =>
      if within_tenth_of 10 f || within_tenth_of 5 f then Some "like"%string
      else if within_tenth_of 2 f || within_tenth_of 1 f
           then Some "dislike"%string
           else None
  end.



(** The bucket the harvest worker ends up with for the rating key
    [rating_key], when it starts after [hist]: that of the final rating in
    the metadata, none when the metadata cannot be had. *)
Definition final_bucket (env : Env) (hist : list event) (rating_key : string)
    : option string :=
  match metadata_reply env (hist ++ [EvSleep Harvest.FINISH_GRACE_SECONDS])
          rating_key with
  | MetadataHttp status (XmlTrack raw) =>
      if (status =? 200)%Z then Rating._normalize_rating raw else None
  | _ => None
  end.

(** The watcher thread running [n] steps with nothing in between. *)
Definition watcher_alone (n : nat) : list Watcher.action :=
  repeat Watcher.WatcherAdvances n.

(** ** Scenarios *)

Definition empty_world : World :=
  {| liked_json := NoFile; disliked_json := NoFile; trace := [] |}.

(** A Lidarr that answers every search with the one hit [h] and accepts
    every delete. *)
Definition lidarr_answering (h : hit) : Env :=
  {| LIDARR_URL := Some "http://lidarr:8686";
     LIDARR_API_KEY := Some "key";
     search_reply := fun _ _ => SearchHttp 200 (BodyList [h]);
     delete_reply := fun _ _ => DeleteHttp 200;
     metadata_reply := fun _ _ => MetadataFailed;
     utc_now := fun _ => "2025-01-01T00:00:00+00:00";
     str_lower := Py.ascii_lower |}.

Definition roygbiv_object (album : album_field) (id : option Z) : hit_object :=
  {| hit_title := "Roygbiv";
     hit_artistName := "Boards of Canada";
     hit_album := album;
     hit_hasFile := true;
     hit_id := id |}.

Definition roygbiv (album : album_field) (id : option Z) : hit :=
  HitObject (roygbiv_object album id).

(** A process started without the Lidarr settings. *)
Definition lidarr_unconfigured : Env :=
  {| LIDARR_URL := None;
     LIDARR_API_KEY := None;
     search_reply := fun _ _ => SearchFailed;
     delete_reply := fun _ _ => DeleteFailed;
     metadata_reply := fun _ _ => MetadataFailed;
     utc_now := fun _ => "2025-01-01T00:00:00+00:00";
     str_lower := Py.ascii_lower |}.

(** A <Track> that carries no attribute at all. *)
Definition bare_track : Poller.attrib :=
  {| Poller.a_grandparentTitle := None;
     Poller.a_parentTitle := None;
     Poller.a_title := None;
     Poller.a_guid := None;
     Poller.a_ratingKey := None;
     Poller.a_viewOffset := Py.NAbsent;
     Poller.a_duration := Py.NAbsent;
     Poller.a_userRating := Py.NAbsent |}.

(* ===================================================================== *)
(** * Properties *)
(* ===================================================================== *)

(** ** Strings *)

Section Strings.
Import Py.

Lemma append_nil (s : string) : "" +:+ s = s.
Proof. reflexivity. Qed.

Lemma append_cons (c : ascii) (a s : string) :
  String c a +:+ s = String c (a +:+ s).
Proof. reflexivity. Qed.

Lemma prefix_app (a b : string) :
  String.prefix a b = true <-> exists post, b = a +:+ post.
Proof.
  revert b. induction a as [|c a IH]; intros b; simpl.
  - split; [intros _; exists b; reflexivity | destruct b; reflexivity].
  - destruct b as [|c' b]; simpl.
    + split; [discriminate | intros [post H]; discriminate].
    + destruct (Ascii.ascii_dec c c') as [->|Hne].
      * rewrite IH. split; intros [post H]; exists post;
          rewrite append_cons in *; congruence.
      * split; [discriminate|].
        intros [post H]. rewrite append_cons in H. congruence.
Qed.

Lemma str_in_unfold (needle hay : string) :
  str_in needle hay =
  if String.prefix needle hay then true
  else match hay with
       | EmptyString => false
       | String _ t => str_in needle t
       end.
Proof. destruct hay; reflexivity. Qed.

Lemma str_in_spec (needle hay : string) :
  str_in needle hay = true <->
  exists pre post, hay = pre +:+ needle +:+ post.
Proof.
  induction hay as [|c t IH]; rewrite str_in_unfold.
  - destruct (String.prefix needle "") eqn:Hp.
    + apply prefix_app in Hp as [post Hp].
      split; [intros _; exists EmptyString, post; exact Hp | reflexivity].
    + split; [discriminate|].
      intros [pre [post H]]. destruct pre; [|discriminate].
      assert (String.prefix needle "" = true) as Hp'
        by (apply prefix_app; exists post; exact H).
      congruence.
  - destruct (String.prefix needle (String c t)) eqn:Hp.
    + apply prefix_app in Hp as [post Hp].
      split; [intros _; exists EmptyString, post; exact Hp | reflexivity].
    + rewrite IH. split.
      * intros [pre [post H]]. exists (String c pre), post.
        rewrite append_cons. congruence.
      * intros [pre [post H]]. destruct pre as [|c' pre].
        -- assert (String.prefix needle (String c t) = true) as Hp'
             by (apply prefix_app; exists post; exact H).
           congruence.
        -- rewrite append_cons in H. exists pre, post. congruence.
Qed.

Lemma truthy_ascii_lower (s : string) : truthy (ascii_lower s) = truthy s.
Proof. destruct s; reflexivity. Qed.

Lemma truthy_spec (s : string) : truthy s = true <-> s <> EmptyString.
Proof. destruct s; simpl; split; congruence. Qed.

End Strings.

(** ** Match scoring *)

Section Scoring.
Import Py Lidarr.
Context (env : Env).

Lemma known_field_matches (known field : string) :
  lowering_keeps_empty env ->
  truthy (str_lower env known)
    && str_in (str_lower env known) (str_lower env field) = true <->
  known <> EmptyString /\ ci_contains env known field.
Proof.
  intros Hlow. rewrite andb_true_iff, Hlow. unfold ci_contains.
  pose proof (truthy_spec known) as Ht.
  pose proof (str_in_spec (str_lower env known) (str_lower env field)) as Hs.
  tauto.
Qed.

Lemma score_formula (o : hit_object) (artist title album : string) :
  lowering_keeps_empty env ->
  hit_album o <> AlbumNotObject ->
  exists ba bt bl : bool,
    (ba = true <-> artist <> EmptyString /\ ci_contains env artist (hit_artistName o)) /\
    (bt = true <-> title <> EmptyString /\ ci_contains env title (hit_title o)) /\
    (bl = true <-> album <> EmptyString /\ ci_contains env album (album_title o)) /\
    match_score env artist title album (HitObject o) =
      Ok (2 * b2z ba + 2 * b2z bt + 2 * b2z bl + b2z (hit_hasFile o))%Z.
Proof.
  intros Hlow Halb.
  exists (truthy (str_lower env artist)
          && str_in (str_lower env artist) (str_lower env (hit_artistName o))),
         (truthy (str_lower env title)
          && str_in (str_lower env title) (str_lower env (hit_title o))),
         (truthy (str_lower env album)
          && str_in (str_lower env album) (str_lower env (album_title o))).
  do 3 (split; [apply known_field_matches; exact Hlow|]).
  unfold match_score, _score_lidarr_candidate, album_title.
  destruct (hit_album o) as [|t|]; [| |congruence]; cbn [bind];
    repeat match goal with |- context [if ?c then _ else _] => destruct c end;
    simpl; reflexivity.
Qed.

Lemma candidate_scores (artist title album : string) (h : hit) :
  candidate h -> exists k, match_score env artist title album h = Ok k.
Proof.
  intros [o [-> Halb]]. unfold match_score, _score_lidarr_candidate.
  destruct (hit_album o) as [|t|]; [| |congruence]; cbn [bind]; eauto.
Qed.

(** The running maximum ends on the first element of greatest key. *)
Lemma max_from_first_greatest {A} (key : A -> result Z) (score : A -> Z)
    (rest : list A) :
  forall best,
    key best = Ok (score best) ->
    Forall (fun x => key x = Ok (score x)) rest ->
    exists b pre post,
      max_from key best (score best) rest = Ok b /\
      best :: rest = pre ++ b :: post /\
      Forall (fun x => (score x < score b)%Z) pre /\
      Forall (fun x => (score x <= score b)%Z) post.
Proof.
  induction rest as [|x rest IH]; intros best Hbest Hall.
  - exists best, [], []. repeat split; constructor.
  - inversion Hall as [|? ? Hx Hrest]; subst. simpl. rewrite Hx. simpl.
    destruct (Z.gtb_spec (score x) (score best)) as [Hgt|Hgt].
    + destruct (IH x Hx Hrest) as (b & pre & post & Hmax & Hsplit & Hpre & Hpost).
      exists b, (best :: pre), post. repeat split; try assumption.
      * simpl. congruence.
      * constructor; [|assumption].
        assert (score x <= score b)%Z; [|lia].
        destruct pre as [|y pre]; simpl in Hsplit; injection Hsplit as -> ?.
        -- lia.
        -- inversion Hpre; subst. lia.
    + destruct (IH best Hbest Hrest) as (b & pre & post & Hmax & Hsplit & Hpre & Hpost).
      destruct pre as [|y pre]; simpl in Hsplit.
      * injection Hsplit as Hb Hr. subst b post.
        exists best, [], (x :: rest). repeat split; try assumption.
        constructor; [lia | assumption].
      * injection Hsplit as Hb Hr. subst y rest.
        exists b, (best :: x :: pre), post. repeat split; try assumption.
        inversion Hpre; subst. repeat constructor; try assumption. lia.
Qed.

End Scoring.

Section Choice.
Import Py Lidarr.

Lemma max_of_candidates (env : Env) (artist title album : string)
    (results : list hit) :
  results <> [] ->
  Forall candidate results ->
  exists best k pre post,
    py_max (match_score env artist title album) results = Ok best /\
    match_score env artist title album best = Ok k /\
    results = pre ++ best :: post /\
    Forall (fun h => exists k', match_score env artist title album h = Ok k'
                                /\ (k' < k)%Z) pre /\
    Forall (fun h => exists k', match_score env artist title album h = Ok k'
                                /\ (k' <= k)%Z) post.
Proof.
  intros Hne Hall.
  set (key := match_score env artist title album).
  set (score := fun h => match key h with Ok k => k | Raise _ => 0%Z end).
  assert (Hkey : Forall (fun h => key h = Ok (score h)) results).
  { eapply Forall_impl; [exact Hall|]. intros h Hc.
    destruct (candidate_scores env artist title album h Hc) as [k Hk].
    unfold score, key. rewrite Hk. reflexivity. }
  destruct results as [|x rest]; [congruence|].
  inversion Hkey as [|? ? Hx Hrest]; subst.
  destruct (max_from_first_greatest key score rest x Hx Hrest)
    as (b & pre & post & Hmax & Hsplit & Hpre & Hpost).
  assert (Hb : key b = Ok (score b)).
  { assert (Hin : In b (x :: rest))
      by (rewrite Hsplit; apply in_or_app; right; left; reflexivity).
    rewrite Forall_forall in Hkey. apply Hkey.
    apply list_elem_of_In. exact Hin. }
  exists b, (score b), pre, post.
  assert (Hsub : forall l, (forall h, In h l -> In h (x :: rest)) ->
            forall (R : Z -> Z -> Prop),
              Forall (fun h => R (score h) (score b)) l ->
              Forall (fun h => exists k', key h = Ok k' /\ R k' (score b)) l).
  { intros l Hl R HR. rewrite Forall_forall in *. intros h Hh.
    exists (score h). split; [|apply HR; exact Hh].
    apply Hkey. apply list_elem_of_In, Hl, list_elem_of_In, Hh. }
  repeat split.
  - simpl. rewrite Hx. simpl. exact Hmax.
  - exact Hb.
  - exact Hsplit.
  - apply (Hsub pre); [|exact Hpre].
    intros h Hh. rewrite Hsplit. apply in_or_app. left. exact Hh.
  - apply (Hsub post); [|exact Hpost].
    intros h Hh. rewrite Hsplit. apply in_or_app. right. right. exact Hh.
Qed.

(** C4. Where the code breaks the claim.  A hit whose album is null is a
    candidate like any other: with known artist and title contained in
    its fields and a file on disk it should score 2 + 2 + 0 + 1 = 5, as
    the same hit without an album does.  The scorer reads the album title
    through [hit.get("album", {}).get("title", "")], whose default covers
    a missing album but not a null one: it raises AttributeError, whatever
    the known fields, and a result list that starts with such a hit makes
    [max] raise, so no candidate is chosen. *)
Theorem scorer_raises_on_null_album (env : Env) (artist title album : string)
    (hit_title hit_artist : string) (has_file : bool) (id : option Z) :
  let h := HitObject {| hit_title := hit_title;
                        hit_artistName := hit_artist;
                        hit_album := AlbumNotObject;
                        hit_hasFile := has_file;
                        hit_id := id |} in
  match_score env artist title album h = Raise AttributeError /\
  (forall rest : list hit,
      py_max (match_score env artist title album) (h :: rest)
        = Raise AttributeError) /\
  match_score (lidarr_answering (roygbiv AlbumAbsent (Some 42%Z)))
    "Boards of Canada" "Roygbiv" "" (roygbiv AlbumAbsent (Some 42%Z)) = Ok 5%Z /\
  match_score (lidarr_answering (roygbiv AlbumAbsent (Some 42%Z)))
    "Boards of Canada" "Roygbiv" "" (roygbiv AlbumNotObject (Some 42%Z))
    = Raise AttributeError.
Proof.
  intros h. repeat split.
Qed.

End Choice.

(** ** The lookup loop *)

Section Lookup.
Import Py Lidarr.

Lemma log_event_after (e : event) (w : World) : log_event e w = after w [e].
Proof. reflexivity. Qed.

Lemma after_after (w : World) (l1 l2 : list event) :
  after (after w l1) l2 = after w (l1 ++ l2).
Proof. unfold after; simpl. rewrite app_assoc. reflexivity. Qed.

Lemma after_nil (w : World) : after w [] = w.
Proof. destruct w; unfold after; simpl. rewrite app_nil_r. reflexivity. Qed.

Lemma search_terms_planned (artist title album guid : option string) :
  search_terms artist title album guid = planned_terms artist title album guid.
Proof.
  unfold search_terms, planned_terms, joined.
  destruct guid as [g|]; simpl;
    destruct (truthy_opt artist), (truthy_opt title), (truthy_opt album);
    simpl; rewrite ?app_nil_r; try reflexivity;
    destruct (truthy g) eqn:Hg; simpl; rewrite ?app_nil_r;
    try (destruct (truthy (last_segment g)) eqn:Ht; simpl);
    repeat case_bool_decide; simpl;
    repeat case_decide; simpl; rewrite ?app_nil_r; try reflexivity;
    rewrite ?truthy_spec in *;
    try (apply not_true_iff_false in Hg; rewrite truthy_spec in Hg);
    try (apply not_true_iff_false in Ht; rewrite truthy_spec in Ht);
    try tauto;
    exfalso; match goal with H : ~ _ |- _ => apply H end;
    (split; [assumption | split; [assumption | apply not_elem_of_nil]]).
Qed.

End Lookup.

Section Lookup_loop.
Import Py Lidarr.
Context (env : Env) (artist title album : string).

Let key := match_score env artist title album.
Let one := lookup_term env (str_lower env artist) (str_lower env title) (str_lower env album).
Let loop := lookup_loop env (str_lower env artist) (str_lower env title) (str_lower env album).

Lemma results_of_some (r : search_response) (results : list hit) :
  results_of r = Some results ->
  exists h rest, results = h :: rest /\ r = SearchHttp 200 (BodyList (h :: rest)).
Proof.
  destruct r as [|status [| |[|h rest]]]; simpl; try discriminate.
  destruct (Z.eqb_spec status 200) as [->|]; [|discriminate].
  intros [= <-]. eauto.
Qed.

Lemma results_of_none (r : search_response) :
  results_of r = None ->
  match r with
  | SearchFailed => True
  | SearchHttp status body =>
      status <> 200%Z \/ body = BodyNotJson \/ body = BodyNotList \/
      body = BodyList []
  end.
Proof.
  destruct r as [|status [| |[|h rest]]]; simpl; auto.
  destruct (Z.eqb_spec status 200); [discriminate | auto].
Qed.

Lemma lookup_term_world (term : string) (w : World) :
  snd (one term w) = after w [EvSearch term].
Proof.
  unfold one, lookup_term. rewrite log_event_after.
  destruct (search_reply env (trace w) term) as [|status body]; [reflexivity|].
  destruct (negb (status =? 200)%Z); [reflexivity|].
  destruct body as [| |[|h rest]]; reflexivity.
Qed.

Lemma lookup_term_results (term : string) (w : World) (h : hit)
    (rest : list hit) :
  search_reply env (trace w) term = SearchHttp 200 (BodyList (h :: rest)) ->
  fst (one term w) =
    (let! best := py_max key (h :: rest) in
     let! best_score := key best in
     let! o := hit_fields best in
     if (best_score >=? 2)%Z then
       match hit_id o with
       | Some id => Ok (Some {| m_id := id; m_title := hit_title o;
                                m_artistName := hit_artistName o |})
       | None => Ok None
       end
     else Ok None).
Proof. intros H. unfold one, lookup_term. rewrite H. reflexivity. Qed.

Lemma lookup_term_passed (term : string) (w : World) :
  passed_over env artist title album (trace w) term ->
  fst (one term w) = Ok None.
Proof.
  unfold passed_over.
  destruct (results_of (search_reply env (trace w) term)) as [results|] eqn:Hres.
  - apply results_of_some in Hres as (h & rest & -> & Hr).
    intros (o & k & Hmax & Hk & Hlow).
    rewrite (lookup_term_results term w h rest Hr).
    fold key in Hmax, Hk. rewrite Hmax. cbn [bind]. rewrite Hk. cbn [bind hit_fields].
    destruct Hlow as [Hlow| ->].
    + destruct (Z.geb_spec k 2); [lia | reflexivity].
    + destruct (k >=? 2)%Z; reflexivity.
  - intros _. apply results_of_none in Hres.
    unfold one, lookup_term.
    destruct (search_reply env (trace w) term) as [|status body]; [reflexivity|].
    destruct (Z.eqb_spec status 200) as [->|]; simpl; [|reflexivity].
    destruct Hres as [?|[->|[->| ->]]]; [congruence|reflexivity..].
Qed.

Lemma lookup_term_found (term : string) (w : World) (results : list hit)
    (o : hit_object) (k id : Z) :
  results_of (search_reply env (trace w) term) = Some results ->
  py_max key results = Ok (HitObject o) ->
  key (HitObject o) = Ok k ->
  (2 <= k)%Z ->
  hit_id o = Some id ->
  fst (one term w) =
    Ok (Some {| m_id := id; m_title := hit_title o;
                m_artistName := hit_artistName o |}).
Proof.
  intros Hres Hmax Hk Hge Hid.
  apply results_of_some in Hres as (h & rest & -> & Hr).
  rewrite (lookup_term_results term w h rest Hr).
  rewrite Hmax. cbn [bind]. rewrite Hk. cbn [bind hit_fields]. rewrite Hid.
  destruct (Z.geb_spec k 2); [reflexivity | lia].
Qed.

(** The history when the term of index [i] is tried. *)
Let history (w : World) (terms : list string) (i : nat) : list event :=
  trace w ++ map EvSearch (take i terms).

Lemma history_step (w : World) (term : string) (rest : list string) (j : nat) :
  history (after w [EvSearch term]) rest j = history w (term :: rest) (S j).
Proof. unfold history. simpl. rewrite <- app_assoc. reflexivity. Qed.

Lemma loop_step_passed (term : string) (rest : list string) (w : World) :
  passed_over env artist title album (trace w) term ->
  loop (term :: rest) w = loop rest (after w [EvSearch term]).
Proof.
  intros Hp. unfold loop. simpl.
  pose proof (lookup_term_passed term w Hp) as H1.
  pose proof (lookup_term_world term w) as H2.
  unfold one in H1, H2.
  destruct (lookup_term env (str_lower env artist) (str_lower env title) (str_lower env album) term w)
    as [r w1]. simpl in H1, H2. subst. reflexivity.
Qed.

Lemma loop_found (terms : list string) :
  forall (w : World) (i : nat) (term : string) (results : list hit)
         (o : hit_object) (k id : Z),
    terms !! i = Some term ->
    (forall j tj, (j < i)%nat -> terms !! j = Some tj ->
                  passed_over env artist title album (history w terms j) tj) ->
    results_of (search_reply env (history w terms i) term) = Some results ->
    py_max key results = Ok (HitObject o) ->
    key (HitObject o) = Ok k ->
    (2 <= k)%Z ->
    hit_id o = Some id ->
    loop terms w =
      (Ok (Some {| m_id := id; m_title := hit_title o;
                   m_artistName := hit_artistName o |}),
       after w (map EvSearch (take (S i) terms))).
Proof.
  induction terms as [|t0 rest IH]; intros w i term results o k id Hi Hbefore
    Hres Hmax Hk Hge Hid; [discriminate|].
  destruct i as [|i].
  - injection Hi as ->. unfold history in Hres. simpl in Hres.
    rewrite app_nil_r in Hres.
    pose proof (lookup_term_found term w results o k id Hres Hmax Hk Hge Hid) as H1.
    pose proof (lookup_term_world term w) as H2.
    unfold loop. simpl. unfold one in H1, H2.
    destruct (lookup_term env (str_lower env artist) (str_lower env title) (str_lower env album) term w)
      as [r w1]. simpl in H1, H2. subst. reflexivity.
  - rewrite loop_step_passed.
    + rewrite (IH (after w [EvSearch t0]) i term results o k id); try assumption.
      * rewrite after_after. reflexivity.
      * intros j tj Hj Htj. rewrite history_step.
        apply Hbefore; [lia | exact Htj].
      * rewrite history_step. exact Hres.
    + specialize (Hbefore 0%nat t0 ltac:(lia) eq_refl).
      unfold history in Hbefore. simpl in Hbefore.
      rewrite app_nil_r in Hbefore. exact Hbefore.
Qed.

Lemma loop_exhausted (terms : list string) :
  forall w : World,
    (forall j tj, terms !! j = Some tj ->
                  passed_over env artist title album (history w terms j) tj) ->
    loop terms w = (Ok None, after w (map EvSearch terms)).
Proof.
  induction terms as [|t0 rest IH]; intros w Hall.
  - unfold loop. simpl. rewrite after_nil. reflexivity.
  - rewrite loop_step_passed.
    + rewrite IH.
      * rewrite after_after. reflexivity.
      * intros j tj Htj. rewrite history_step. apply Hall. exact Htj.
    + specialize (Hall 0%nat t0 eq_refl).
      unfold history in Hall. simpl in Hall.
      rewrite app_nil_r in Hall. exact Hall.
Qed.

End Lookup_loop.

Section Lookup_frame.
Import Py Lidarr.
Context (env : Env) (artist_lower track_lower album_lower : string).

Let one := lookup_term env artist_lower track_lower album_lower.
Let loop := lookup_loop env artist_lower track_lower album_lower.

Lemma lookup_term_after (term : string) (w : World) :
  snd (one term w) = after w [EvSearch term].
Proof.
  unfold one, lookup_term. rewrite log_event_after.
  destruct (search_reply env (trace w) term) as [|status body]; [reflexivity|].
  destruct (negb (status =? 200)%Z); [reflexivity|].
  destruct body as [| |[|h rest]]; reflexivity.
Qed.

(** The loop only searches: terms in order, each at most once. *)
Lemma loop_after (terms : list string) :
  forall w : World,
    exists n, (n <= length terms)%nat /\
              snd (loop terms w) = after w (map EvSearch (take n terms)).
Proof.
  induction terms as [|t0 rest IH]; intros w.
  - exists 0%nat. split; [simpl; lia|]. unfold loop. simpl.
    rewrite after_nil. reflexivity.
  - unfold loop. simpl.
    pose proof (lookup_term_after t0 w) as H1. unfold one in H1.
    destruct (lookup_term env artist_lower track_lower album_lower t0 w)
      as [r w1]. simpl in H1. subst w1.
    assert (Hstop : snd (r, after w [EvSearch t0]) =
                    after w (map EvSearch (take 1 (t0 :: rest)))) by reflexivity.
    destruct r as [[m|]|e];
      try (exists 1%nat; split; [simpl; lia | exact Hstop]).
    destruct (IH (after w [EvSearch t0])) as (n & Hn & Hw).
    exists (S n). split; [simpl; lia|].
    fold loop. rewrite Hw, after_after. reflexivity.
Qed.

End Lookup_frame.

Section Lookup_total.
Import Py Lidarr.
Context (env : Env) (Hwf : well_formed_replies env).
Context (artist title album : string).

Let key := match_score env artist title album.

Lemma lookup_term_total (term : string) (w : World) :
  exists r, fst (lookup_term env (str_lower env artist) (str_lower env title) (str_lower env album)
                   term w) = Ok r.
Proof.
  destruct (results_of (search_reply env (trace w) term)) as [results|] eqn:Hres.
  - apply results_of_some in Hres as (h & rest & -> & Hr).
    rewrite (lookup_term_results env artist title album term w h rest Hr).
    pose proof (Hwf _ _ _ _ Hr) as Hcand.
    destruct (max_of_candidates env artist title album (h :: rest)
                ltac:(discriminate) Hcand)
      as (best & k & pre & post & Hmax & Hk & Hsplit & _ & _).
    assert (Hbest : candidate best).
    { rewrite Forall_forall in Hcand. apply Hcand. rewrite Hsplit.
      apply list_elem_of_In, in_or_app. right. left. reflexivity. }
    destruct Hbest as (o & -> & _).
    rewrite Hmax. cbn [bind]. rewrite Hk. cbn [bind hit_fields].
    destruct (k >=? 2)%Z; [destruct (hit_id o)|]; eauto.
  - exists None. apply lookup_term_passed.
    unfold passed_over. rewrite Hres. exact I.
Qed.

Lemma loop_total (terms : list string) :
  forall w : World,
    exists r, fst (lookup_loop env (str_lower env artist) (str_lower env title) (str_lower env album)
                     terms w) = Ok r.
Proof.
  induction terms as [|t0 rest IH]; intros w; simpl; [eauto|].
  destruct (lookup_term_total t0 w) as [r Hr].
  destruct (lookup_term env (str_lower env artist) (str_lower env title) (str_lower env album) t0 w)
    as [r' w1]. simpl in Hr. subst r'.
  destruct r as [m|]; [eauto | apply IH].
Qed.

End Lookup_total.

(** ** Lookup, delete and purge *)

Section Client.
Import Py Lidarr.
Context (env : Env) (artist title album guid : option string).

Let lookup := lidarr_track_lookup_multi env artist title album guid.
Let purge := purge_with_lidarr env artist title album guid.
Let terms := search_terms artist title album guid.

Lemma lookup_after (w : World) :
  exists n, (n <= length terms)%nat /\
            snd (lookup w) = after w (map EvSearch (take n terms)).
Proof.
  unfold lookup, lidarr_track_lookup_multi.
  destruct (negb (configured env)).
  - exists 0%nat. split; [lia|]. simpl. rewrite after_nil. reflexivity.
  - apply loop_after.
Qed.

Lemma lookup_some_configured (w : World) (m : lidarr_match) :
  fst (lookup w) = Ok (Some m) -> configured env = true.
Proof.
  unfold lookup, lidarr_track_lookup_multi.
  destruct (configured env); [reflexivity | discriminate].
Qed.

Lemma lookup_total (w : World) :
  well_formed_replies env -> exists r, fst (lookup w) = Ok r.
Proof.
  intros Hwf. unfold lookup, lidarr_track_lookup_multi.
  destruct (negb (configured env)); [eauto|].
  apply loop_total. exact Hwf.
Qed.

Lemma delete_after (id : Z) (w : World) :
  configured env = true ->
  snd (lidarr_delete_track env id w) = after w [EvDelete id].
Proof.
  intros Hc. unfold lidarr_delete_track. rewrite Hc. simpl.
  destruct (delete_reply env (trace w) id); reflexivity.
Qed.

Lemma purge_result (w : World) :
  fst (purge w) =
  match fst (lookup w) with
  | Ok _ => Ok tt
  | Raise e => Raise e
  end.
Proof.
  unfold purge, purge_with_lidarr. fold lookup.
  destruct (lookup w) as [[[m|]|e] w1]; simpl; try reflexivity.
  destruct (lidarr_delete_track env (m_id m) w1). reflexivity.
Qed.

Lemma purge_world (w : World) :
  snd (purge w) =
  match fst (lookup w) with
  | Ok (Some m) => after (snd (lookup w)) [EvDelete (m_id m)]
  | _ => snd (lookup w)
  end.
Proof.
  unfold purge, purge_with_lidarr. fold lookup.
  pose proof (lookup_some_configured w) as Hc.
  destruct (lookup w) as [[[m|]|e] w1]; simpl in *; try reflexivity.
  pose proof (delete_after (m_id m) w1 (Hc m eq_refl)) as Hd.
  destruct (lidarr_delete_track env (m_id m) w1). exact Hd.
Qed.

Lemma delete_requests_app (l1 l2 : list event) :
  delete_requests (l1 ++ l2) = delete_requests l1 ++ delete_requests l2.
Proof. apply omap_app. Qed.

Lemma delete_requests_searches (l : list string) :
  delete_requests (map EvSearch l) = [].
Proof. induction l; [reflexivity | exact IHl]. Qed.

Lemma purge_deletes (w : World) :
  delete_requests (trace (snd (purge w))) =
  delete_requests (trace w) ++
  match fst (lookup w) with
  | Ok (Some m) => [m_id m]
  | _ => []
  end.
Proof.
  rewrite purge_world.
  destruct (lookup_after w) as (n & _ & Hw).
  destruct (fst (lookup w)) as [[m|]|e]; rewrite Hw; simpl;
    rewrite ?delete_requests_app, delete_requests_searches, ?app_nil_r;
    reflexivity.
Qed.

Lemma purge_files (w : World) :
  liked_json (snd (purge w)) = liked_json w /\
  disliked_json (snd (purge w)) = disliked_json w /\
  exists later, trace (snd (purge w)) = trace w ++ later.
Proof.
  rewrite purge_world.
  destruct (lookup_after w) as (n & _ & Hw).
  destruct (fst (lookup w)) as [[m|]|e]; rewrite Hw; simpl;
    repeat split; eauto.
  rewrite <- app_assoc. eauto.
Qed.


End Client.

Section Lookup_claims.
Import Py Lidarr.

(** C5, as the code has it.  With Lidarr configured, the terms tried are
    artist+title, artist+album, title alone, album+artist and the last
    guid segment (when present and not already listed), terms with an
    empty component left out, in this order.  The lookup returns the
    best-scoring hit of the first term whose search yields results with
    a best score of at least 2 AND a non-null id, and stops searching
    there; a term whose best hit scores under 2 or has no id is passed
    over.  When every term is passed over the lookup returns none, after
    having searched all of them. *)
Theorem lookup_first_acceptable (env : Env)
    (artist title album guid : option string) (w : World) :
  configured env = true ->
  let a := or_empty artist in
  let t := or_empty title in
  let al := or_empty album in
  let terms := search_terms artist title album guid in
  let history i := trace w ++ map EvSearch (take i terms) in
  terms = planned_terms artist title album guid /\
  (forall i term results o k id,
      terms !! i = Some term ->
      (forall j tj, (j < i)%nat -> terms !! j = Some tj ->
                    passed_over env a t al (history j) tj) ->
      results_of (search_reply env (history i) term) = Some results ->
      py_max (match_score env a t al) results = Ok (HitObject o) ->
      match_score env a t al (HitObject o) = Ok k ->
      (2 <= k)%Z ->
      hit_id o = Some id ->
      lidarr_track_lookup_multi env artist title album guid w =
        (Ok (Some {| m_id := id; m_title := hit_title o;
                     m_artistName := hit_artistName o |}),
         after w (map EvSearch (take (S i) terms)))) /\
  ((forall j tj, terms !! j = Some tj ->
                 passed_over env a t al (history j) tj) ->
   lidarr_track_lookup_multi env artist title album guid w =
     (Ok None, after w (map EvSearch terms))).
Proof.
  intros Hc a t al terms history.
  split; [apply search_terms_planned|].
  unfold lidarr_track_lookup_multi. rewrite Hc. simpl.
  split.
  - intros i term results o k id. apply loop_found.
  - apply loop_exhausted.
Qed.

Lemma lookup_first_acceptable_witness :
  lidarr_track_lookup_multi (lidarr_answering (roygbiv AlbumAbsent (Some 42%Z)))
    (Some "Boards of Canada") (Some "Roygbiv") None None empty_world =
    (Ok (Some {| m_id := 42; m_title := "Roygbiv";
                 m_artistName := "Boards of Canada" |}),
     after empty_world [EvSearch "Boards of Canada Roygbiv"]) /\
  lidarr_track_lookup_multi (lidarr_answering (roygbiv AlbumAbsent None))
    (Some "Boards of Canada") (Some "Roygbiv") None None empty_world =
    (Ok None,
     after empty_world [EvSearch "Boards of Canada Roygbiv"; EvSearch "Roygbiv"]).
Proof.
  split.
  - destruct (lookup_first_acceptable
                (lidarr_answering (roygbiv AlbumAbsent (Some 42%Z)))
                (Some "Boards of Canada") (Some "Roygbiv") None None
                empty_world eq_refl) as (_ & Hfound & _).
    apply (Hfound 0%nat "Boards of Canada Roygbiv"
             [roygbiv AlbumAbsent (Some 42%Z)]
             (roygbiv_object AlbumAbsent (Some 42%Z)) 5%Z 42%Z);
      try reflexivity; [intros j tj Hj; lia | lia].
  - destruct (lookup_first_acceptable
                (lidarr_answering (roygbiv AlbumAbsent None))
                (Some "Boards of Canada") (Some "Roygbiv") None None
                empty_world eq_refl) as (_ & _ & Hnone).
    apply Hnone. intros j tj Htj.
    destruct j as [|[|j]]; simpl in Htj; [| |discriminate];
      injection Htj as <-; eexists _, 5%Z;
      (split; [reflexivity | split; [reflexivity | right; reflexivity]]).
Defined.

(** The claim as first stated fails: the best hit of the first term
    scores 5, yet the lookup goes on to the next term and returns none,
    because the hit carries no id. *)
Lemma lookup_passes_over_hit_without_id :
  let env := lidarr_answering (roygbiv AlbumAbsent None) in
  let key := match_score env "Boards of Canada" "Roygbiv" "" in
  results_of (search_reply env [] "Boards of Canada Roygbiv") =
    Some [roygbiv AlbumAbsent None] /\
  py_max key [roygbiv AlbumAbsent None] = Ok (roygbiv AlbumAbsent None) /\
  key (roygbiv AlbumAbsent None) = Ok 5%Z /\
  lidarr_track_lookup_multi env (Some "Boards of Canada") (Some "Roygbiv")
      None None empty_world =
    (Ok None,
     after empty_world [EvSearch "Boards of Canada Roygbiv"; EvSearch "Roygbiv"]).
Proof. repeat split. Qed.

(** C6, as the code has it.  Purge returns without raising whenever
    every result list Lidarr sends holds well-formed candidates (failed
    requests, error statuses, undecodable and non-list bodies are all
    absorbed); and, whatever Lidarr sends, it issues a delete request
    exactly when the lookup returned a candidate, for that candidate's
    id, and none otherwise. *)
Theorem purge_safe_on_well_formed_replies (env : Env)
    (artist title album guid : option string) (w : World) :
  (well_formed_replies env ->
   fst (purge_with_lidarr env artist title album guid w) = Ok tt) /\
  delete_requests (trace (snd (purge_with_lidarr env artist title album guid w))) =
    delete_requests (trace w) ++
    match fst (lidarr_track_lookup_multi env artist title album guid w) with
    | Ok (Some m) => [m_id m]
    | _ => []
    end.
Proof.
  split; [|apply purge_deletes].
  intros Hwf. rewrite purge_result.
  destruct (lookup_total env artist title album guid w Hwf) as [r ->].
  reflexivity.
Qed.

Lemma well_formed_answering (h : hit) :
  candidate h -> well_formed_replies (lidarr_answering h).
Proof.
  intros Hc hist term status results [= _ <-]. repeat constructor. exact Hc.
Qed.

Lemma purge_safe_on_well_formed_replies_witness :
  fst (purge_with_lidarr (lidarr_answering (roygbiv AlbumAbsent (Some 42%Z)))
         (Some "Boards of Canada") (Some "Roygbiv") None None empty_world)
    = Ok tt.
Proof.
  apply (purge_safe_on_well_formed_replies
           (lidarr_answering (roygbiv AlbumAbsent (Some 42%Z)))).
  apply well_formed_answering. eexists. split; [reflexivity | discriminate].
Defined.

(** The claim as first stated fails: a hit whose album is null makes the
    scorer raise, and nothing between the scorer and the caller of purge
    catches it. *)
Lemma purge_raises_on_null_album :
  purge_with_lidarr (lidarr_answering (roygbiv AlbumNotObject (Some 42%Z)))
    (Some "Boards of Canada") (Some "Roygbiv") None None empty_world =
    (Raise AttributeError,
     after empty_world [EvSearch "Boards of Canada Roygbiv"]).
Proof. reflexivity. Qed.

End Lookup_claims.

(** ** The like / dislike store *)

Section Store_facts.
Import Py Store.

Lemma occurrences_absent {A} `{EqDecision A} (x : A) (l : list A) :
  x ∉ l -> occurrences x l = 0%nat.
Proof.
  unfold occurrences. induction l as [|y l IH]; intros Hx; [reflexivity|].
  apply not_elem_of_cons in Hx as [Hne Hx].
  rewrite filter_cons. destruct (decide (y = x)); [congruence | apply IH, Hx].
Qed.

Lemma occurrences_NoDup {A} `{EqDecision A} (x : A) (l : list A) :
  NoDup l -> x ∈ l -> occurrences x l = 1%nat.
Proof.
  unfold occurrences. induction l as [|y l IH]; intros Hnd Hx.
  - apply elem_of_nil in Hx as [].
  - apply NoDup_cons in Hnd as [Hy Hnd]. rewrite filter_cons.
    destruct (decide (y = x)) as [->|Hne]; simpl.
    + f_equal. apply (occurrences_absent x l Hy).
    + apply elem_of_cons in Hx as [->|Hx]; [congruence | apply IH; assumption].
Qed.

Lemma appended_elem (track : option string) (l : list (option string)) :
  track ∈ appended track l.
Proof.
  unfold appended. case_bool_decide; [assumption|].
  apply elem_of_app. right. apply list_elem_of_singleton. reflexivity.
Qed.

Lemma appended_NoDup (track : option string) (l : list (option string)) :
  NoDup l -> NoDup (appended track l).
Proof.
  unfold appended. intros Hnd. case_bool_decide; [assumption|].
  apply NoDup_app. repeat split; [assumption| |apply NoDup_singleton].
  intros x Hx Hx'. apply list_elem_of_singleton in Hx'. congruence.
Qed.

Lemma appended_idem (track : option string) (l : list (option string)) :
  appended track (appended track l) = appended track l.
Proof.
  unfold appended at 1. rewrite bool_decide_eq_true_2; [reflexivity|].
  apply appended_elem.
Qed.

Lemma found_tracks_NoDup artist stored :
  NoDup stored -> NoDup (found_tracks artist stored).
Proof. destruct artist; [auto | intros _; apply NoDup_nil_2]. Qed.

Lemma found_tracks_appended artist track stored :
  found_tracks artist (appended track (found_tracks artist stored)) =
  appended track (found_tracks artist stored) \/
  artist = None.
Proof. destruct artist; [left; reflexivity | right; reflexivity]. Qed.

Lemma add_like_world (env : Env) (artist track : option string) (w : World) :
  disliked_json (add_like env artist track w) = disliked_json w /\
  trace (add_like env artist track w) = trace w ++ [EvSave LIKED_PATH].
Proof. split; reflexivity. Qed.

Lemma add_dislike_world (env : Env) (artist track : option string)
    (ban : bool) (w : World) :
  liked_json (add_dislike env artist track ban w) = liked_json w /\
  trace (add_dislike env artist track ban w) = trace w ++ [EvSave DISLIKED_PATH].
Proof. split; reflexivity. Qed.

Lemma liked_tracks_add_like (env : Env) (artist track : option string)
    (w : World) (a' : option string) :
  liked_tracks a' (liked_json (add_like env artist track w)) =
  if decide (json_key a' = json_key artist)
  then appended track (found_tracks artist (liked_tracks artist (liked_json w)))
  else liked_tracks a' (liked_json w).
Proof.
  unfold liked_tracks, add_like. simpl.
  destruct (decide (json_key a' = json_key artist)) as [->|Hne].
  - rewrite lookup_insert_eq. simpl. unfold appended, found_tracks.
    destruct artist as [a|]; simpl; [|reflexivity].
    destruct (_load_json_file (liked_json w) !! a); reflexivity.
  - rewrite lookup_insert_ne by congruence. reflexivity.
Qed.

Lemma liked_last_seen_add_like (env : Env) (artist track : option string)
    (w : World) :
  liked_last_seen artist (liked_json (add_like env artist track w)) =
  Some (utc_now env (trace w)).
Proof.
  unfold liked_last_seen, add_like. simpl. rewrite lookup_insert_eq. reflexivity.
Qed.

Lemma disliked_tracks_add_dislike (env : Env) (artist track : option string)
    (ban : bool) (w : World) (a' : option string) :
  disliked_tracks a' (disliked_json (add_dislike env artist track ban w)) =
  if decide (json_key a' = json_key artist)
  then appended track
         (found_tracks artist (disliked_tracks artist (disliked_json w)))
  else disliked_tracks a' (disliked_json w).
Proof.
  unfold disliked_tracks, add_dislike. simpl.
  destruct (decide (json_key a' = json_key artist)) as [->|Hne].
  - rewrite lookup_insert_eq. simpl. unfold appended, found_tracks.
    destruct artist as [a|]; simpl; [|reflexivity].
    destruct (_load_json_file (disliked_json w) !! a); reflexivity.
  - rewrite lookup_insert_ne by congruence. reflexivity.
Qed.

Lemma disliked_last_seen_add_dislike (env : Env)
    (artist track : option string) (ban : bool) (w : World) :
  disliked_last_seen artist (disliked_json (add_dislike env artist track ban w)) =
  Some (utc_now env (trace w)).
Proof.
  unfold disliked_last_seen, add_dislike. simpl. rewrite lookup_insert_eq.
  reflexivity.
Qed.

(** What two calls in a row leave for the artist. *)
Lemma twice_appended (artist track : option string)
    (stored : list (option string)) :
  NoDup stored ->
  let once := appended track (found_tracks artist stored) in
  let twice := appended track (found_tracks artist once) in
  occurrences track twice = 1%nat /\ NoDup twice /\ twice = once.
Proof.
  intros Hnd once twice.
  assert (Heq : twice = once).
  { unfold twice, once. destruct artist; simpl; [apply appended_idem | reflexivity]. }
  assert (Hnd' : NoDup once)
    by (apply appended_NoDup, found_tracks_NoDup, Hnd).
  rewrite Heq. repeat split; [|exact Hnd'].
  apply occurrences_NoDup; [exact Hnd' | apply appended_elem].
Qed.

End Store_facts.

Section Store_claims.
Import Py Store.

(** C9. On a store whose track list for the artist has no duplicates,
    two calls of add-like with the same artist and track leave exactly
    one occurrence of the track in the stored list, the second call
    changing nothing in the list and stamping last-seen with its own
    clock reading; the same for add-dislike.  Neither operation ever
    introduces a duplicate into the list of any artist. *)
Theorem add_twice_one_occurrence (env : Env) (artist track : option string)
    (w : World) :
  (NoDup (liked_tracks artist (liked_json w)) ->
   let w1 := add_like env artist track w in
   let w2 := add_like env artist track w1 in
   occurrences track (liked_tracks artist (liked_json w2)) = 1%nat /\
   liked_tracks artist (liked_json w2) = liked_tracks artist (liked_json w1) /\
   liked_last_seen artist (liked_json w2) = Some (utc_now env (trace w1))) /\
  (forall ban,
      NoDup (disliked_tracks artist (disliked_json w)) ->
      let w1 := add_dislike env artist track ban w in
      let w2 := add_dislike env artist track ban w1 in
      occurrences track (disliked_tracks artist (disliked_json w2)) = 1%nat /\
      disliked_tracks artist (disliked_json w2) =
        disliked_tracks artist (disliked_json w1) /\
      disliked_last_seen artist (disliked_json w2) =
        Some (utc_now env (trace w1))) /\
  (forall a',
      NoDup (liked_tracks a' (liked_json w)) ->
      NoDup (liked_tracks a' (liked_json (add_like env artist track w)))) /\
  (forall a' ban,
      NoDup (disliked_tracks a' (disliked_json w)) ->
      NoDup (disliked_tracks a'
               (disliked_json (add_dislike env artist track ban w)))).
Proof.
  repeat split.
  - rewrite !liked_tracks_add_like, !decide_True by reflexivity.
    apply twice_appended. assumption.
  - rewrite !liked_tracks_add_like, !decide_True by reflexivity.
    apply twice_appended. assumption.
  - apply liked_last_seen_add_like.
  - rewrite !disliked_tracks_add_dislike, !decide_True by reflexivity.
    apply twice_appended. assumption.
  - rewrite !disliked_tracks_add_dislike, !decide_True by reflexivity.
    apply twice_appended. assumption.
  - apply disliked_last_seen_add_dislike.
  - intros a' Hnd. rewrite liked_tracks_add_like.
    destruct (decide (json_key a' = json_key artist)) as [Heq|]; [|exact Hnd].
    apply appended_NoDup. destruct artist; [|apply NoDup_nil_2].
    unfold liked_tracks in *. rewrite <- Heq. exact Hnd.
  - intros a' ban Hnd. rewrite disliked_tracks_add_dislike.
    destruct (decide (json_key a' = json_key artist)) as [Heq|]; [|exact Hnd].
    apply appended_NoDup. destruct artist; [|apply NoDup_nil_2].
    unfold disliked_tracks in *. rewrite <- Heq. exact Hnd.
Qed.

Lemma add_twice_one_occurrence_witness :
  let env := lidarr_answering HitNotObject in
  let w2 := add_like env (Some "Boards of Canada") (Some "Roygbiv")
              (add_like env (Some "Boards of Canada") (Some "Roygbiv")
                 empty_world) in
  NoDup (liked_tracks (Some "Boards of Canada") (liked_json empty_world)) /\
  occurrences (Some "Roygbiv")
    (liked_tracks (Some "Boards of Canada") (liked_json w2)) = 1%nat.
Proof.
  intros env w2.
  assert (Hnd : NoDup (liked_tracks (Some "Boards of Canada")
                         (liked_json empty_world)))
    by apply NoDup_nil_2.
  split; [exact Hnd|].
  destruct (add_twice_one_occurrence env (Some "Boards of Canada")
              (Some "Roygbiv") empty_world) as (Hlike & _).
  apply (Hlike Hnd).
Defined.




(** C10. A terminal snapshot whose ratingKey is absent or empty makes the
    harvest worker return at once: the world after is the world before,
    so no metadata is fetched, neither collection is written and no
    delete request is sent.  This is the case of every session the
    poller had to name by artist and title. *)
Theorem harvest_without_rating_key (env : Env) (session_id : string)
    (finished_snap : snapshot) (w : World) :
  ((ratingKey finished_snap = None \/ ratingKey finished_snap = Some EmptyString) ->
   Harvest._harvest_final_rating_for_finished_track env session_id
     finished_snap w = w) /\
  (forall a : Poller.attrib,
      Poller.a_ratingKey a = None \/ Poller.a_ratingKey a = Some EmptyString ->
      (Poller.observe a).1 =
        str (Poller.a_grandparentTitle a) +:+ "-" +:+ str (Poller.a_title a) /\
      Harvest._harvest_final_rating_for_finished_track env
        (Poller.observe a).1 (Poller.observe a).2 w = w).
Proof.
  split.
  - intros [H|H]; unfold Harvest._harvest_final_rating_for_finished_track;
      rewrite H; reflexivity.
  - intros a [H|H];
      unfold Harvest._harvest_final_rating_for_finished_track, Poller.observe;
      simpl; rewrite H; split; reflexivity.
Qed.

Lemma harvest_without_rating_key_witness :
  let snap := {| artist := Some "Boards of Canada"; album := None;
                 track := Some "Roygbiv"; guid := None; ratingKey := None;
                 progress_fraction := 0.5%float; user_rating_raw := NAbsent |} in
  ratingKey snap = None /\
  Harvest._harvest_final_rating_for_finished_track
    (lidarr_answering HitNotObject) "Boards of Canada-Roygbiv" snap
    empty_world = empty_world.
Proof.
  intros snap. split; [reflexivity|].
  apply harvest_without_rating_key. left. reflexivity.
Defined.

End Store_claims.

(** ** The finished-session watcher *)

Section Watcher_facts.
Import Watcher.

Lemma run_app (l1 l2 : list action) (s : state) :
  run (l1 ++ l2) s = run l2 (run l1 s).
Proof. revert s. induction l1 as [|a l1 IH]; intros s; [reflexivity | apply IH]. Qed.

Lemma inv_init : watcher_inv init.
Proof.
  split; [apply NoDup_nil_2|]. simpl. intros x. split; intros H.
  - apply elem_of_nil in H as [].
  - apply elem_of_empty in H as [].
Qed.

Lemma inv_set_pc (s : state) (p : pc) :
  watcher_inv s ->
  match at_pc s with Started _ _ => False | _ => True end ->
  match p with Started _ _ => False | _ => True end ->
  watcher_inv (set_pc p s).
Proof.
  intros [Hnd Hpc] Hs Hp. split; [exact Hnd|]. simpl.
  destruct p; try contradiction; destruct (at_pc s); try contradiction; exact Hpc.
Qed.

Lemma inv_advance (s : state) : watcher_inv s -> watcher_inv (watcher_advance s).
Proof.
  intros Hinv. unfold watcher_advance.
  destruct (at_pc s) as [|[|[sid snap] todo]|sid todo] eqn:Hpc.
  - apply inv_set_pc; [exact Hinv | rewrite Hpc | ]; exact I.
  - apply inv_set_pc; [exact Hinv | rewrite Hpc | ]; exact I.
  - case_bool_decide as Hin.
    + apply inv_set_pc; [exact Hinv | rewrite Hpc | ]; exact I.
    + destruct Hinv as [Hnd Hiff]. rewrite Hpc in Hiff.
      split; simpl.
      * rewrite fmap_app. apply NoDup_app. repeat split.
        -- exact Hnd.
        -- intros x Hx Hx'. apply list_elem_of_singleton in Hx'. subst x.
           apply Hin, Hiff, Hx.
        -- apply NoDup_singleton.
      * split; [exact Hin|]. intros x. rewrite fmap_app, elem_of_app, Hiff.
        simpl. rewrite list_elem_of_singleton. tauto.
  - destruct Hinv as [Hnd Hiff]. rewrite Hpc in Hiff. destruct Hiff as [Hnot Hiff].
    split; [exact Hnd|]. simpl. intros x. rewrite Hiff, elem_of_union, elem_of_singleton.
    tauto.
Qed.

Lemma inv_raise (s : state) : watcher_inv s -> watcher_inv (watcher_raise s).
Proof.
  intros Hinv. unfold watcher_raise.
  destruct (at_pc s) as [|[|[sid snap] todo]|sid todo] eqn:Hpc; try exact Hinv.
  apply inv_set_pc; [exact Hinv | rewrite Hpc | ]; exact I.
Qed.

Lemma inv_poller (e : string) (snap : snapshot) (s : state) :
  watcher_inv s -> watcher_inv (poller_write e snap s).
Proof. intros Hinv. exact Hinv. Qed.

Lemma inv_run (schedule : list action) :
  forall s, watcher_inv s -> watcher_inv (run schedule s).
Proof.
  induction schedule as [|a rest IH]; intros s Hinv; [exact Hinv|].
  simpl. apply IH. destruct a; simpl;
    [apply inv_advance | apply inv_raise | apply inv_poller]; exact Hinv.
Qed.

Lemma scheduled_exec (a : action) (s : state) (sid : string) :
  sid ∈ _FINISHED_ALREADY_SCHEDULED s ->
  sid ∈ _FINISHED_ALREADY_SCHEDULED (exec a s).
Proof.
  intros Hin. destruct a; simpl; [| |exact Hin].
  - unfold watcher_advance.
    destruct (at_pc s) as [|[|[sid' snap] todo]|sid' todo]; simpl; try exact Hin.
    + case_bool_decide; exact Hin.
    + apply elem_of_union. right. exact Hin.
  - unfold watcher_raise.
    destruct (at_pc s) as [|[|[sid' snap] todo]|sid' todo]; exact Hin.
Qed.

Lemma scheduled_run (schedule : list action) :
  forall (s : state) (sid : string),
    sid ∈ _FINISHED_ALREADY_SCHEDULED s ->
    sid ∈ _FINISHED_ALREADY_SCHEDULED (run schedule s).
Proof.
  induction schedule as [|a rest IH]; intros s sid Hin; [exact Hin|].
  simpl. apply IH, scheduled_exec, Hin.
Qed.

Lemma launches_NoDup (sid : string) (l : list (string * snapshot)) :
  NoDup l.*1 ->
  (length (filter (fun p => p.1 = sid) l) <= 1)%nat /\
  (sid ∈ l.*1 -> length (filter (fun p => p.1 = sid) l) = 1%nat).
Proof.
  induction l as [|[k v] l IH]; intros Hnd.
  - split; [simpl; lia|]. intros H. apply elem_of_nil in H as [].
  - rewrite fmap_cons in Hnd. apply NoDup_cons in Hnd as [Hk Hnd].
    destruct (IH Hnd) as [Hle Heq]. rewrite filter_cons. simpl.
    destruct (decide (k = sid)) as [->|Hne]; simpl.
    + assert (Hz : length (filter (fun p => p.1 = sid) l) = 0%nat).
      { destruct (filter (fun p => p.1 = sid) l) as [|[k' v'] r] eqn:Hf;
          [reflexivity|].
        exfalso. apply Hk.
        assert (Hin : (k', v') ∈ filter (fun p => p.1 = sid) l)
          by (rewrite Hf; apply elem_of_cons; left; reflexivity).
        apply list_elem_of_filter in Hin as [Hk' Hin]. simpl in Hk'. subst k'.
        apply list_elem_of_fmap. exists (sid, v'). split; [reflexivity | exact Hin]. }
      rewrite Hz. split; [lia | reflexivity].
    + split; [exact Hle|]. intros Hin. apply Heq.
      apply elem_of_cons in Hin as [Hin|Hin]; [congruence | exact Hin].
Qed.

(** C1. Whatever the interleaving of the watcher's steps with the
    poller's writes to the finished map (and with scans cut short by an
    exception), no session id is ever given two harvest workers; and once
    an id is in the scheduled set it has had its one worker and nothing
    that happens later launches another, however often the id is written
    again to the finished map. *)
Theorem at_most_one_worker_per_session (schedule : list action) :
  let s := run schedule init in
  NoDup (started s).*1 /\
  (forall sid, (launches sid s <= 1)%nat) /\
  (forall sid later,
      sid ∈ _FINISHED_ALREADY_SCHEDULED s ->
      launches sid s = 1%nat /\ launches sid (run later s) = 1%nat).
Proof.
  intros s.
  assert (Hinv : forall later, watcher_inv (run later s))
    by (intros later; apply inv_run, inv_run, inv_init).
  assert (Hstarted : forall s' sid,
             watcher_inv s' -> sid ∈ _FINISHED_ALREADY_SCHEDULED s' ->
             launches sid s' = 1%nat).
  { intros s' sid [Hnd Hiff] Hin. apply launches_NoDup; [exact Hnd|].
    destruct (at_pc s'); [apply Hiff, Hin | apply Hiff, Hin |].
    destruct Hiff as [_ Hiff]. apply Hiff. right. exact Hin. }
  pose proof (Hinv []) as Hs. simpl in Hs.
  repeat split.
  - apply Hs.
  - intros sid. apply launches_NoDup, Hs.
  - apply Hstarted; assumption.
  - apply Hstarted; [apply Hinv | apply scheduled_run; assumption].
Qed.

Lemma at_most_one_worker_per_session_witness :
  let snap := {| artist := Some "Boards of Canada"; album := None;
                 track := Some "Roygbiv"; guid := None; ratingKey := Some "123";
                 progress_fraction := 0.5%float; user_rating_raw := Py.NAbsent |} in
  let schedule := [PollerWrites "123" snap; WatcherAdvances; WatcherAdvances;
                   PollerWrites "123" snap; WatcherAdvances] in
  let later := [WatcherAdvances; PollerWrites "123" snap; WatcherAdvances;
                WatcherAdvances; WatcherAdvances] in
  "123" ∈ _FINISHED_ALREADY_SCHEDULED (run schedule init) /\
  launches "123" (run later (run schedule init)) = 1%nat.
Proof.
  intros snap schedule later.
  assert (Hin : "123" ∈ _FINISHED_ALREADY_SCHEDULED (run schedule init)).
  { simpl. apply elem_of_union. left. apply elem_of_singleton. reflexivity. }
  split; [exact Hin|].
  destruct (at_most_one_worker_per_session schedule) as (_ & _ & Honce).
  apply (Honce "123" later Hin).
Defined.

End Watcher_facts.

(** ** The poller *)

Section Poller_facts.
Import Poller.

Local Opaque observe.

Lemma latest_cons (sid : string) (a : attrib) (rest : list attrib) :
  latest sid (a :: rest) =
  match latest sid rest with
  | Some snap => Some snap
  | None => if decide ((observe a).1 = sid) then Some (observe a).2 else None
  end.
Proof.
  unfold latest.
  set (f := fun a : attrib =>
              if decide ((observe a).1 = sid) then Some (observe a).2 else None).
  change (omap f (a :: rest))
    with (match f a with Some y => y :: omap f rest | None => omap f rest end).
  unfold f at 1.
  destruct (decide ((observe a).1 = sid)).
  - apply last_cons.
  - destruct (last (omap f rest)); reflexivity.
Qed.

Lemma latest_listed (sid : string) (tracks : list attrib) :
  sid ∈ session_ids tracks <-> is_Some (latest sid tracks).
Proof.
  induction tracks as [|a rest IH].
  - split; [intros H; apply elem_of_nil in H as [] | intros [x H]; discriminate].
  - rewrite latest_cons. unfold session_ids in *. cbn [map].
    rewrite elem_of_cons, IH.
    destruct (latest sid rest) as [snap|]; [split; eauto|].
    destruct (decide ((observe a).1 = sid)) as [Heq|Hne].
    + split; eauto.
    + split; [intros [H|[x H]]; [congruence | discriminate]|].
      intros [x H]; discriminate.
Qed.

Lemma scan_tracks_spec (tracks : list attrib) :
  forall (current : gmap string snapshot) (seen_now : gset string),
    (forall sid,
        (scan_tracks tracks current seen_now).1 !! sid =
        match latest sid tracks with
        | Some snap => Some snap
        | None => current !! sid
        end) /\
    (scan_tracks tracks current seen_now).2 =
      list_to_set (session_ids tracks) ∪ seen_now.
Proof.
  induction tracks as [|a rest IH]; intros current seen_now.
  - split; [reflexivity|]. simpl. apply set_eq. intros x.
    rewrite elem_of_union, elem_of_empty. tauto.
  - simpl. destruct (observe a) as [sid0 snap0] eqn:Hobs.
    destruct (IH (<[sid0 := snap0]> current) ({[sid0]} ∪ seen_now)) as [Hcur Hseen].
    split.
    + intros sid. rewrite Hcur, latest_cons, Hobs. simpl.
      destruct (latest sid rest); [reflexivity|].
      destruct (decide (sid0 = sid)) as [->|Hne].
      * apply lookup_insert_eq.
      * apply lookup_insert_ne. exact Hne.
    + rewrite Hseen. unfold session_ids. simpl. apply set_eq. intros x.
      rewrite !elem_of_union. tauto.
Qed.

Lemma poll_once_ok (tracks : list attrib) (st : state) :
  poll_once (SessionsHttp 200 (SessionsXml tracks)) st =
  let scanned := scan_tracks tracks (CURRENT_TRACKS st) ∅ in
  {| CURRENT_TRACKS := scanned.1;
     RECENTLY_FINISHED :=
       mark_ended (elements (last_active st ∖ scanned.2)) scanned.1
         (RECENTLY_FINISHED st);
     last_active := scanned.2 |}.
Proof.
  unfold poll_once. simpl.
  destruct (scan_tracks tracks (CURRENT_TRACKS st) ∅). reflexivity.
Qed.

(** What a cycle that gets through writes: every session id of the
    listing is mapped to the snapshot parsed from its (last) <Track>, and
    the ids of the cycle become the set the next cycle diffs against.  The
    loop holds no statement that takes a key out of [CURRENT_TRACKS]. *)
Lemma poll_cycle_writes (r : sessions_response)
    (tracks : list attrib) (st : state) :
  listing r = Some tracks ->
  let st' := poll_once r st in
  (forall sid,
      CURRENT_TRACKS st' !! sid =
      match latest sid tracks with
      | Some snap => Some snap
      | None => CURRENT_TRACKS st !! sid
      end) /\
  (forall sid, sid ∈ session_ids tracks <-> is_Some (latest sid tracks)) /\
  dom (CURRENT_TRACKS st') =
    dom (CURRENT_TRACKS st) ∪ list_to_set (session_ids tracks) /\
  last_active st' = list_to_set (session_ids tracks).
Proof.
  intros Hl.
  assert (Hr : r = SessionsHttp 200 (SessionsXml tracks)).
  { destruct r as [|status [|tr]]; simpl in Hl; try discriminate.
    destruct (Z.eqb_spec status 200); [congruence | discriminate]. }
  subst r. cbv zeta. rewrite poll_once_ok. cbn [CURRENT_TRACKS last_active].
  destruct (scan_tracks_spec tracks (CURRENT_TRACKS st) ∅) as [Hcur Hseen].
  split; [exact Hcur|]. split; [intros sid; apply latest_listed|]. split.
  - apply set_eq. intros sid.
    rewrite elem_of_union, !elem_of_dom, Hcur, elem_of_list_to_set, latest_listed.
    destruct (latest sid tracks) as [snap|].
    + split; eauto.
    + split; [auto | intros [H|[x H]]; [exact H | discriminate]].
  - rewrite Hseen. apply set_eq. intros x.
    rewrite elem_of_union, elem_of_empty. tauto.
Qed.

Lemma poll_cycle_writes_witness :
  let st' := poll_once (ok_listing [session_123]) init in
  listing (ok_listing [session_123]) = Some [session_123] /\
  CURRENT_TRACKS st' !! "123" = Some (observe session_123).2 /\
  last_active st' = {["123"]}.
Proof.
  intros st'.
  assert (Hl : listing (ok_listing [session_123]) = Some [session_123])
    by reflexivity.
  split; [exact Hl|].
  destruct (poll_cycle_writes (ok_listing [session_123])
              [session_123] init Hl) as (Hcur & _ & _ & Hlast).
  unfold st'. split.
  - rewrite (Hcur "123"). reflexivity.
  - rewrite Hlast. vm_compute. reflexivity.
Defined.

(** C7. Where the code breaks the claim.  [CURRENT_TRACKS] is, by the
    source's own words, the dict of "what's currently playing", and the
    /now endpoint serves it as "live".  Session "123" is listed in one
    cycle and missing from the next, which gets through with an empty
    listing: the session is reported finished, yet after that cycle the
    live map still holds "123", because the loop only ever assigns into
    the dict and never deletes from it. *)
Lemma ended_session_stays_live :
  let st1 := poll_once (ok_listing [session_123]) init in
  let st2 := poll_once (ok_listing []) st1 in
  listing (ok_listing []) = Some [] /\
  session_ids [] = [] /\
  CURRENT_TRACKS st2 !! "123" = Some (observe session_123).2 /\
  RECENTLY_FINISHED st2 !! "123" = Some (observe session_123).2.
Proof. repeat split; vm_compute; reflexivity. Qed.

End Poller_facts.

(** ** Binary64 arithmetic *)

Section Binary64.
Local Open Scope Z_scope.

Lemma fexp_eq (e : Z) : fexp prec emax e = Z.max (e - 53) (-1074).
Proof. reflexivity. Qed.

Lemma digits2_size (p : positive) : digits2_pos p = Pos.size p.
Proof. induction p; simpl; congruence. Qed.

Lemma digits_bounds (p : positive) :
  2 ^ (Zpos (digits2_pos p) - 1) <= Zpos p < 2 ^ Zpos (digits2_pos p).
Proof.
  rewrite digits2_size. split.
  - pose proof (Pos.size_le p) as H.
    assert (H' : 2 ^ Zpos (Pos.size p) <= 2 * Zpos p).
    { rewrite <- (Pos2Z.inj_pow 2). change (2 * Zpos p) with (Zpos p~0).
      apply Pos2Z.pos_le_pos. exact H. }
    replace (Zpos (Pos.size p)) with (Zpos (Pos.size p) - 1 + 1) in H' by lia.
    rewrite Z.pow_add_r in H' by lia. lia.
  - pose proof (Pos.size_gt p) as H.
    rewrite <- (Pos2Z.inj_pow 2). apply Pos2Z.pos_lt_pos. exact H.
Qed.


Lemma digits_ge (p : positive) (k : Z) :
  2 ^ k <= Zpos p -> k < Zpos (digits2_pos p).
Proof.
  intros Hp. destruct (digits_bounds p) as [_ Hhi].
  destruct (Z.lt_ge_cases k (Zpos (digits2_pos p))) as [|Hge]; [assumption|].
  exfalso.
  assert (2 ^ Zpos (digits2_pos p) <= 2 ^ k)
    by (apply Z.pow_le_mono_r; lia).
  lia.
Qed.

Lemma iter_xO (m d : positive) :
  Zpos (Pos.iter xO m d) = Zpos m * 2 ^ Zpos d /\
  digits2_pos (Pos.iter xO m d) = (digits2_pos m + d)%positive.
Proof.
  induction d as [|d IH] using Pos.peano_ind.
  - simpl. split; [lia | rewrite Pos.add_1_r; reflexivity].
  - rewrite Pos.iter_succ. destruct IH as [IH1 IH2]. split.
    + rewrite Pos2Z.inj_xO, IH1, Pos2Z.inj_succ, Z.pow_succ_r by lia. lia.
    + simpl. rewrite IH2. lia.
Qed.

Lemma shl_align_le (m : positive) (e e' : Z) :
  e' <= e ->
  Zpos (fst (shl_align m e e')) = Zpos m * 2 ^ (e - e') /\
  snd (shl_align m e e') = e' /\
  Zpos (digits2_pos (fst (shl_align m e e'))) = Zpos (digits2_pos m) + (e - e').
Proof.
  intros Hle. unfold shl_align.
  destruct (e' - e) as [|d|d] eqn:Hd; try lia.
  - assert (e' = e) by lia. subst. rewrite Z.sub_diag. cbn [fst snd].
    change (2 ^ 0) with 1. repeat split; lia.
  - destruct (iter_xO m d) as [H1 H2]. cbn [fst snd].
    assert (e - e' = Zpos d) as -> by lia.
    rewrite H1, H2. repeat split; lia.
Qed.

Lemma shl_align_ge (m : positive) (e e' : Z) :
  e <= e' -> shl_align m e e' = (m, e).
Proof.
  intros Hle. unfold shl_align. destruct (e' - e) eqn:Hd; try reflexivity. lia.
Qed.

Lemma shr_1_half (mrs : shr_record) :
  0 <= shr_m mrs -> shr_m (shr_1 mrs) = shr_m mrs / 2.
Proof.
  destruct mrs as [m r s]. simpl. intros Hm.
  destruct m as [|[p|p|]|p]; simpl; try reflexivity; try lia.
  - rewrite Pos2Z.inj_xI. apply Z.div_unique with 1; lia.
  - rewrite Pos2Z.inj_xO. apply Z.div_unique with 0; lia.
Qed.

Lemma pow2_xO (p : positive) : 2 ^ Zpos p~0 = 2 ^ Zpos p * 2 ^ Zpos p.
Proof. rewrite <- Z.pow_add_r by lia. f_equal. lia. Qed.

Lemma pow2_xI (p : positive) : 2 ^ Zpos p~1 = 2 * (2 ^ Zpos p * 2 ^ Zpos p).
Proof.
  rewrite <- Z.pow_add_r, <- Z.pow_succ_r by lia. f_equal. lia.
Qed.

Lemma iter_shr_1 (p : positive) :
  forall mrs : shr_record,
    0 <= shr_m mrs ->
    shr_m (SpecFloat.iter_pos shr_1 p mrs) = shr_m mrs / 2 ^ Zpos p.
Proof.
  induction p as [p IH|p IH|]; intros mrs Hm; simpl SpecFloat.iter_pos.
  - assert (H1 : 0 <= shr_m (shr_1 mrs))
      by (rewrite shr_1_half by assumption; apply Z.div_pos; lia).
    assert (H2 : 0 <= shr_m (SpecFloat.iter_pos shr_1 p (shr_1 mrs)))
      by (rewrite IH by assumption; apply Z.div_pos; lia).
    rewrite IH, IH, shr_1_half by assumption.
    rewrite !Z.div_div by lia. rewrite pow2_xI. reflexivity.
  - assert (H2 : 0 <= shr_m (SpecFloat.iter_pos shr_1 p mrs))
      by (rewrite IH by assumption; apply Z.div_pos; lia).
    rewrite IH, IH by assumption.
    rewrite !Z.div_div by lia. rewrite pow2_xO. reflexivity.
  - rewrite shr_1_half by assumption. reflexivity.
Qed.

Lemma shr_m_of_loc (m : Z) (l : location) : shr_m (shr_record_of_loc m l) = m.
Proof. destruct l as [|[| |]]; reflexivity. Qed.

(** One rounding shift of a positive mantissa: the mantissa stays
    positive and the exponent can only grow, up to the canonical one. *)
Lemma shr_fexp_pos (m : positive) (e : Z) (l : location) :
  -1074 <= e ->
  0 < shr_m (fst (shr_fexp prec emax (Zpos m) e l)) /\
  e <= snd (shr_fexp prec emax (Zpos m) e l) /\
  snd (shr_fexp prec emax (Zpos m) e l) =
    Z.max e (fexp prec emax (Zpos (digits2_pos m) + e)).
Proof.
  intros He. unfold shr_fexp, shr. cbn [Zdigits2].
  rewrite fexp_eq.
  destruct (digits_bounds m) as [Hlo Hhi].
  set (d := Zpos (digits2_pos m)) in *.
  destruct (Z.max (d + e - 53) (-1074) - e) as [|n|n] eqn:Hn;
    cbn [fst snd]; rewrite ?shr_m_of_loc; try (repeat split; lia).
  rewrite iter_shr_1 by (rewrite shr_m_of_loc; lia).
  rewrite shr_m_of_loc.
  assert (Hnd : Zpos n = d - 53) by lia.
  repeat split; try lia.
  apply Z.div_str_pos. split; [lia|].
  rewrite Hnd.
  assert (2 ^ (d - 53) <= 2 ^ (d - 1)) by (apply Z.pow_le_mono_r; lia).
  lia.
Qed.

Lemma round_nearest_even_bounds (m : Z) (l : location) :
  m <= round_nearest_even m l <= m + 1.
Proof.
  unfold round_nearest_even. destruct l as [|[| |]]; try lia.
  destruct (Z.even m); lia.
Qed.

(** Rounding a positive mantissa never gives zero or NaN, and never lowers
    the exponent. *)
Lemma binary_round_aux_pos (s : bool) (m : positive) (e : Z) (l : location) :
  -1074 <= e ->
  (exists m' e', binary_round_aux prec emax s (Zpos m) e l = S754_finite s m' e' /\
                 Z.max e (fexp prec emax (Zpos (digits2_pos m) + e)) <= e') \/
  binary_round_aux prec emax s (Zpos m) e l = S754_infinity s.
Proof.
  intros He. unfold binary_round_aux.
  destruct (shr_fexp_pos m e l He) as (Hm1 & He1 & He1').
  destruct (shr_fexp prec emax (Zpos m) e l) as [mrs1 e1]. cbn [fst snd] in *.
  pose proof (round_nearest_even_bounds (shr_m mrs1) (loc_of_shr_record mrs1)) as Hr.
  destruct (round_nearest_even (shr_m mrs1) (loc_of_shr_record mrs1))
    as [|mr|mr]; try lia.
  destruct (shr_fexp_pos mr e1 loc_Exact ltac:(lia)) as (Hm2 & He2 & _).
  destruct (shr_fexp prec emax (Zpos mr) e1 loc_Exact) as [mrs2 e2].
  cbn [fst snd] in *.
  destruct (shr_m mrs2) as [|m2|m2]; try lia.
  destruct (e2 <=? emax - prec); [left | right; reflexivity].
  exists m2, e2. split; [reflexivity | lia].
Qed.

(** Rounding a mantissa that is already canonical changes nothing. *)
Lemma binary_round_aux_canonical (s : bool) (m : positive) (e : Z) :
  fexp prec emax (Zpos (digits2_pos m) + e) = e ->
  e <= 971 ->
  binary_round_aux prec emax s (Zpos m) e loc_Exact = S754_finite s m e.
Proof.
  intros Hc He. unfold binary_round_aux, shr_fexp. cbn [Zdigits2].
  rewrite Hc, Z.sub_diag. cbn [shr shr_record_of_loc shr_m loc_of_shr_record
    round_nearest_even Zdigits2].
  rewrite Hc, Z.sub_diag. cbn [shr shr_record_of_loc shr_m].
  destruct (Z.leb_spec e (emax - prec)) as [_|Hgt]; [reflexivity|].
  change (emax - prec) with 971 in Hgt. lia.
Qed.

(** What validity says of a finite double. *)
Lemma bounded_canonical (m : positive) (e : Z) :
  bounded prec emax m e = true ->
  fexp prec emax (Zpos (digits2_pos m) + e) = e /\
  -1074 <= e <= 971 /\
  Zpos (digits2_pos m) <= 53 /\
  (-1074 < e -> Zpos (digits2_pos m) = 53).
Proof.
  unfold bounded, canonical_mantissa. intros H.
  apply andb_prop in H as [Hc He].
  apply Z.eqb_eq in Hc. apply Z.leb_le in He.
  change (emax - prec) with 971 in He.
  split; [exact Hc|]. rewrite fexp_eq in Hc. lia.
Qed.

(** Comparison of two positive finite doubles given by mantissa and
    exponent, whatever their shape. *)
Lemma SFcompare_finite (m m' : positive) (e e' : Z) :
  SFcompare (S754_finite false m e) (S754_finite false m' e') =
  Some (match e ?= e' with
        | Lt => Lt
        | Gt => Gt
        | Eq => (m ?= m')%positive
        end).
Proof. reflexivity. Qed.

Lemma SFltb_finite (m m' : positive) (e e' : Z) :
  SFltb (S754_finite false m e) (S754_finite false m' e') = true <->
  e < e' \/ (e = e' /\ Zpos m < Zpos m').
Proof.
  unfold SFltb. rewrite SFcompare_finite.
  destruct (Z.compare_spec e e') as [Heq|Hlt|Hgt].
  - destruct (Pos.compare_spec m m') as [Hm|Hm|Hm].
    + subst. split; [discriminate | lia].
    + apply Pos2Z.pos_lt_pos in Hm. split; [intros _; right; split; assumption | reflexivity].
    + apply Pos2Z.pos_lt_pos in Hm. split; [discriminate | lia].
  - split; [intros _; left; exact Hlt | reflexivity].
  - split; [discriminate | lia].
Qed.



Lemma below_tenth_finite (s : bool) (m : positive) (e : Z) :
  SFltb (SFabs (S754_finite s m e)) tenth_sf = true <->
  e < -56 \/ (e = -56 /\ Zpos m < 7205759403792794).
Proof. cbn [SFabs]. unfold tenth_sf. rewrite SFltb_finite. reflexivity. Qed.

(** Rounding [p * 2^e] when [p] fits in 53 bits: exact, hence below the
    double 0.1 exactly when below one tenth. *)
Lemma round_small_below_tenth (s : bool) (p : positive) (e : Z) :
  -1074 <= e <= 971 ->
  Zpos (digits2_pos p) <= 53 ->
  e < 0 ->
  SFltb (SFabs (binary_round prec emax s p e)) tenth_sf = true <->
  10 * Zpos p < 2 ^ (- e).
Proof.
  intros He Hd Hneg. unfold binary_round.
  set (d := Zpos (digits2_pos p)) in *.
  set (et := fexp prec emax (d + e)).
  assert (Het : et <= e) by (unfold et; rewrite fexp_eq; lia).
  destruct (shl_align_le p e et Het) as (Hmz & Hez & Hdz).
  destruct (shl_align p e et) as [mz ez]. cbn [fst snd] in *. subst ez.
  rewrite binary_round_aux_canonical;
    [| rewrite Hdz; fold d; replace (d + (e - et) + et) with (d + e) by lia;
       reflexivity | lia].
  rewrite below_tenth_finite.
  assert (Hcan : et = Z.max (d + e - 53) (-1074)) by reflexivity.
  assert (Hpow : 2 ^ (- et) = 2 ^ (- e) * 2 ^ (e - et)).
  { rewrite <- Z.pow_add_r by lia. f_equal. lia. }
  assert (Hpos : 0 < 2 ^ (e - et)) by (apply Z.pow_pos_nonneg; lia).
  assert (Hiff : 10 * Zpos p < 2 ^ (- e) <-> 10 * Zpos mz < 2 ^ (- et)).
  { rewrite Hmz, Hpow. split; intros H; nia. }
  rewrite Hiff.
  destruct (digits_bounds mz) as [Hlo Hhi]. rewrite Hdz in Hlo, Hhi.
  fold d in Hlo, Hhi.
  destruct (Z.compare_spec et (-56)) as [Heq|Hlt|Hgt].
  - rewrite Heq. change (2 ^ (- -56)) with 72057594037927936.
    split; intros H; lia.
  - split; [intros _ | intros _; left; exact Hlt].
    assert (Zpos mz < 2 ^ 53).
    { eapply Z.lt_le_trans; [exact Hhi|]. apply Z.pow_le_mono_r; lia. }
    assert (2 ^ 57 <= 2 ^ (- et)) by (apply Z.pow_le_mono_r; lia).
    change (2 ^ 53) with 9007199254740992 in *.
    change (2 ^ 57) with 144115188075855872 in *. lia.
  - split; [lia|]. intros H. exfalso.
    assert (Hd53 : d + (e - et) = 53) by lia.
    rewrite Hd53 in Hlo. change (2 ^ (53 - 1)) with 4503599627370496 in Hlo.
    assert (2 ^ (- et) <= 2 ^ 55) by (apply Z.pow_le_mono_r; lia).
    change (2 ^ 55) with 36028797018963968 in *. lia.
Qed.

(** Rounding [p * 2^e] when [p] needs more than 53 bits and the number is
    at least an eighth: the result is not below the double 0.1. *)
Lemma round_large_not_below_tenth (s : bool) (p : positive) (e : Z) :
  -1074 <= e ->
  53 < Zpos (digits2_pos p) ->
  -3 <= Zpos (digits2_pos p) + e - 1 ->
  SFltb (SFabs (binary_round prec emax s p e)) tenth_sf = false.
Proof.
  intros He Hd Hmag. unfold binary_round.
  set (d := Zpos (digits2_pos p)) in *.
  rewrite shl_align_ge by (rewrite fexp_eq; lia).
  destruct (binary_round_aux_pos s p e loc_Exact He)
    as [(m' & e' & -> & He')| ->]; [|reflexivity].
  fold d in He'. rewrite fexp_eq in He'.
  apply not_true_iff_false. rewrite below_tenth_finite. lia.
Qed.

(** Both cases together, for a number that is at least an eighth whenever
    it needs more than 53 bits. *)
Lemma round_below_tenth (s : bool) (p : positive) (e : Z) :
  -1074 <= e < 0 ->
  (2 ^ 53 <= Zpos p -> 2 ^ (- e) <= 8 * Zpos p) ->
  SFltb (SFabs (binary_round prec emax s p e)) tenth_sf = true <->
  10 * Zpos p < 2 ^ (- e).
Proof.
  intros He Hbig.
  destruct (Z.le_gt_cases (Zpos (digits2_pos p)) 53) as [Hd|Hd].
  - apply round_small_below_tenth; lia.
  - destruct (digits_bounds p) as [Hlo _].
    assert (H53 : 2 ^ 53 <= Zpos p).
    { eapply Z.le_trans; [|exact Hlo]. apply Z.pow_le_mono_r; lia. }
    specialize (Hbig H53).
    assert (Hge : - e - 3 < Zpos (digits2_pos p)).
    { destruct (Z.le_gt_cases e (-3)) as [He3|He3]; [|lia].
      assert (Hk : 2 ^ (- e) = 8 * 2 ^ (- e - 3)).
      { change 8 with (2 ^ 3). rewrite <- Z.pow_add_r by lia. f_equal. lia. }
      apply digits_ge. lia. }
    rewrite round_large_not_below_tenth by lia.
    split; [discriminate | lia].
Qed.

(** [abs(f - c) < 0.1] for a finite [f] and a constant [c] between 1 and
    16, in units of 2^-1074. *)
Lemma sub_below_tenth (sx : bool) (mx : positive) (ex : Z)
    (mc : positive) (ec : Z) :
  bounded prec emax mx ex = true ->
  2 ^ 52 <= Zpos mc ->
  -52 <= ec <= -49 ->
  SFltb (SFabs (SFsub prec emax (S754_finite sx mx ex)
                                (S754_finite false mc ec))) tenth_sf = true <->
  10 * Z.abs (cond_Zopp sx (Zpos mx) * 2 ^ (ex + 1074)
              - Zpos mc * 2 ^ (ec + 1074)) < 2 ^ 1074.
Proof.
  intros Hb Hmc Hec.
  destruct (bounded_canonical mx ex Hb) as (_ & Hex & Hdx & _).
  assert (Hmx : Zpos mx < 2 ^ 53).
  { destruct (digits_bounds mx) as [_ Hhi].
    eapply Z.lt_le_trans; [exact Hhi|]. apply Z.pow_le_mono_r; lia. }
  unfold SFsub. cbv zeta.
  set (ez := Z.min ex ec).
  assert (Hmin : ez = Z.min ex ec) by reflexivity. clearbody ez.
  assert (Hez : -1074 <= ez < 0) by lia.
  destruct (shl_align_le mx ex ez) as (HX & _ & _); [lia|].
  destruct (shl_align_le mc ec ez) as (HC & _ & _); [lia|].
  set (X := fst (shl_align mx ex ez)) in *.
  set (C := fst (shl_align mc ec ez)) in *.
  cbn [cond_Zopp].
  set (K := 2 ^ (ez + 1074)).
  assert (HK : 0 < K) by (apply Z.pow_pos_nonneg; lia).
  assert (HKx : 2 ^ (ex + 1074) = 2 ^ (ex - ez) * K).
  { unfold K. rewrite <- Z.pow_add_r by lia. f_equal. lia. }
  assert (HKc : 2 ^ (ec + 1074) = 2 ^ (ec - ez) * K).
  { unfold K. rewrite <- Z.pow_add_r by lia. f_equal. lia. }
  assert (HK0 : 2 ^ 1074 = 2 ^ (- ez) * K).
  { unfold K. rewrite <- Z.pow_add_r by lia. f_equal. lia. }
  rewrite HK0. clear HK0.
  set (M := cond_Zopp sx (Zpos X) - Zpos C).
  assert (HM : cond_Zopp sx (Zpos mx) * 2 ^ (ex + 1074)
               - Zpos mc * 2 ^ (ec + 1074) = M * K).
  { unfold M. rewrite HKx, HKc.
    destruct sx; cbn [cond_Zopp].
    - change (- Z.pos X) with (- (Z.pos X)).
      rewrite HX, HC. change (Z.neg mx) with (- Zpos mx). ring.
    - rewrite HX, HC. ring. }
  rewrite HM, Z.abs_mul, (Z.abs_eq K) by lia.
  rewrite Z.mul_assoc.
  assert (Hscale : 10 * Z.abs M * K < 2 ^ (- ez) * K <->
                   10 * Z.abs M < 2 ^ (- ez)).
  { symmetry. apply Z.mul_lt_mono_pos_r. exact HK. }
  rewrite Hscale.
  assert (Hbig : 2 ^ 53 <= Z.abs M -> 2 ^ (- ez) <= 8 * Z.abs M).
  { intros H53.
    destruct (Z.le_gt_cases (-56) ez) as [Hge|Hlt].
    - assert (2 ^ (- ez) <= 2 ^ 56) by (apply Z.pow_le_mono_r; lia).
      change (2 ^ 56) with (8 * 2 ^ 53) in *. lia.
    - assert (Heq : ez = ex) by lia.
      assert (HXm : Zpos X = Zpos mx).
      { rewrite HX, Heq, Z.sub_diag. apply Z.mul_1_r. }
      assert (Hp : 2 ^ (- ex) <= Zpos C).
      { rewrite HC, Heq.
        assert (Hp1 : 2 ^ (- ex) = 2 ^ 52 * 2 ^ (- 52 - ex)).
        { rewrite <- Z.pow_add_r by lia. f_equal. lia. }
        assert (Hp2 : 2 ^ (- 52 - ex) <= 2 ^ (ec - ex))
          by (apply Z.pow_le_mono_r; lia).
        assert (0 < 2 ^ (- 52 - ex)) by (apply Z.pow_pos_nonneg; lia).
        rewrite Hp1. nia. }
      assert (H57 : 2 ^ 57 <= 2 ^ (- ex)) by (apply Z.pow_le_mono_r; lia).
      rewrite Heq.
      assert (HabsM : Zpos C - Zpos X <= Z.abs M).
      { unfold M. destruct sx; cbn [cond_Zopp]; lia. }
      change (2 ^ 53) with 9007199254740992 in *.
      change (2 ^ 57) with 144115188075855872 in *. lia. }
  destruct M as [|p|p] eqn:HMp; cbn [binary_normalize].
  - split; [intros _; apply Z.pow_pos_nonneg; lia | reflexivity].
  - apply round_below_tenth; [lia | exact Hbig].
  - change (Z.abs (Z.neg p)) with (Zpos p) in *.
    apply round_below_tenth; [lia | exact Hbig].
Qed.

(** ** Division *)








End Binary64.

(** ** The rating normalizer *)

Section Rating_facts.
Import Py Rating.
Local Open Scope Z_scope.

(** [abs(f - c) < 0.1] as the interpreter computes it says exactly that the
    value of [f] is less than one tenth away from [c], for a constant [c]
    from 1 up to 15. *)
Lemma near_within (f c : float) (cz : Z) (mc : positive) (ec : Z) :
  Prim2SF c = S754_finite false mc ec ->
  2 ^ 52 <= Zpos mc ->
  -52 <= ec <= -49 ->
  Zpos mc * 2 ^ (ec + 1074) = cz * 2 ^ 1074 ->
  1 <= cz ->
  near f c = within_tenth_of cz f.
Proof.
  intros Hc Hmc Hec Hval Hcz. unfold near, within_tenth_of, units.
  rewrite FloatAxioms.ltb_spec, FloatAxioms.abs_spec, FloatAxioms.sub_spec, Hc.
  change (Prim2SF tenth) with tenth_sf.
  pose proof (Prim2SF_valid f) as Hv.
  unfold SF64sub.
  destruct (Prim2SF f) as [s|s| |s m e].
  - cbn [SFsub negb]. apply Bool.eq_iff_eq_true.
    rewrite below_tenth_finite, Z.ltb_lt.
    assert (HT : 0 < 2 ^ 1074) by (apply Z.pow_pos_nonneg; lia).
    set (T := 2 ^ 1074) in *. clearbody T.
    split; [lia|]. intros H. exfalso.
    assert (T <= cz * T) by nia. lia.
  - destruct s; reflexivity.
  - reflexivity.
  - apply Bool.eq_iff_eq_true. rewrite Z.ltb_lt, <- Hval.
    apply sub_below_tenth; assumption.
Qed.

Lemma near_10 (f : float) : near f 10 = within_tenth_of 10 f.
Proof.
  apply (near_within f 10 10 5629499534213120 (-49));
    [reflexivity | vm_compute; discriminate | lia
    | vm_compute; reflexivity | lia].
Qed.

Lemma near_5 (f : float) : near f 5 = within_tenth_of 5 f.
Proof.
  apply (near_within f 5 5 5629499534213120 (-50));
    [reflexivity | vm_compute; discriminate | lia
    | vm_compute; reflexivity | lia].
Qed.

Lemma near_2 (f : float) : near f 2 = within_tenth_of 2 f.
Proof.
  apply (near_within f 2 2 4503599627370496 (-51));
    [reflexivity | vm_compute; discriminate | lia
    | vm_compute; reflexivity | lia].
Qed.

Lemma near_1 (f : float) : near f 1 = within_tenth_of 1 f.
Proof.
  apply (near_within f 1 1 4503599627370496 (-52));
    [reflexivity | vm_compute; discriminate | lia
    | vm_compute; reflexivity | lia].
Qed.

(** No double is exactly one tenth away from a whole number. *)
Lemma never_exactly_a_tenth (x : Z) : 10 * x <> 2 ^ 1074.
Proof.
  intros H.
  assert (H0 : (10 * x) mod 10 = 0) by (rewrite Z.mul_comm; apply Z.mod_mul; lia).
  rewrite H in H0. vm_compute in H0. discriminate.
Qed.

(** C3. The rating normalizer is total and does what the specification
    says: an absent or unparsable raw value is unrated; a parsed value
    whose exact value is within 0.1 of 10 or of 5 is a like; one within
    0.1 of 2 or of 1 is a dislike; every other value (NaN and the
    infinities included) is unrated.  The binary64 test
    [abs(f - c) < 0.1] of the code agrees with the comparison of exact
    values for every double, and "less than" and "at most" 0.1 is the same
    thing since no double is exactly 0.1 away from these numbers.  The six
    examples of the specification follow. *)
Theorem normalize_rating_bands :
  (forall val : pynum, _normalize_rating val = normalize_spec val) /\
  (forall (c : Z) (f : float), at_most_tenth_from c f = within_tenth_of c f) /\
  _normalize_rating (NVal 10) = Some "like"%string /\
  _normalize_rating (NVal 0x1.4333333333333p+2) = Some "like"%string /\
  _normalize_rating (NVal 1) = Some "dislike"%string /\
  _normalize_rating (NVal 0x1.0a3d70a3d70a4p+1) = Some "dislike"%string /\
  _normalize_rating (NVal 7) = None /\
  _normalize_rating NAbsent = None.
Proof.
  split; [|split; [|repeat split; vm_compute; reflexivity]].
  - intros [| | |f]; try reflexivity.
    unfold _normalize_rating, normalize_spec. cbn [float_of].
    rewrite near_10, near_5, near_2, near_1. reflexivity.
  - intros c f. unfold at_most_tenth_from, within_tenth_of.
    destruct (units f) as [u|]; [|reflexivity].
    apply Bool.eq_iff_eq_true. rewrite Z.leb_le, Z.ltb_lt.
    pose proof (never_exactly_a_tenth (Z.abs (u - c * 2 ^ 1074))) as Hne.
    set (T := 2 ^ 1074) in *. clearbody T. lia.
Qed.

End Rating_facts.

(** ** The progress fraction *)

Section Progress_facts.
Import Py Poller.





End Progress_facts.

(** ** Further properties of the client, the store and the loops *)

Section Client_facts.
Import Py Lidarr.

(** [lidarr_delete_track]: nothing is sent without the settings;
    otherwise exactly one DELETE goes out, and the answer is [True] exactly
    for the statuses 200, 202 and 204. *)
Theorem delete_track_outcome (env : Env) (id : Z) (w : World) :
  (configured env = false -> lidarr_delete_track env id w = (false, w)) /\
  (configured env = true ->
   snd (lidarr_delete_track env id w) = after w [EvDelete id] /\
   (fst (lidarr_delete_track env id w) = true <->
    exists status, delete_reply env (trace w) id = DeleteHttp status /\
                   (status = 200 \/ status = 202 \/ status = 204)%Z)).
Proof.
  unfold lidarr_delete_track.
  split; intros Hc; rewrite Hc; cbn [negb]; [reflexivity|].
  split; [destruct (delete_reply env (trace w) id); reflexivity|].
  destruct (delete_reply env (trace w) id) as [|status]; cbn [fst].
  - split; [discriminate | intros (s & H & _); discriminate].
  - rewrite bool_decide_eq_true, !elem_of_cons, elem_of_nil. split.
    + intros H. exists status. split; [reflexivity | tauto].
    + intros (s & Hs & H). injection Hs as <-. tauto.
Qed.

Lemma delete_track_outcome_witness :
  let env := lidarr_answering (roygbiv AlbumAbsent (Some 42%Z)) in
  snd (lidarr_delete_track env 42 empty_world)
    = after empty_world [EvDelete 42%Z] /\
  fst (lidarr_delete_track env 42 empty_world) = true.
Proof.
  intros env.
  destruct (delete_track_outcome env 42 empty_world) as [_ H].
  destruct (H eq_refl) as [Hw Hok].
  split; [exact Hw|]. apply Hok. exists 200%Z.
  split; [reflexivity | left; reflexivity].
Defined.

(** [lidarr_track_lookup_multi] only searches: what it sends is a prefix
    of the planned terms, in their order; it writes no file and asks for no
    deletion; without the settings it sends nothing. *)
Theorem lookup_only_searches (env : Env)
    (artist title album guid : option string) (w : World) :
  let out := lidarr_track_lookup_multi env artist title album guid w in
  let terms := search_terms artist title album guid in
  (exists n, (n <= length terms)%nat /\
             snd out = after w (map EvSearch (take n terms))) /\
  delete_requests (trace (snd out)) = delete_requests (trace w) /\
  (configured env = false -> out = (Ok None, w)).
Proof.
  intros out terms.
  destruct (lookup_after env artist title album guid w) as (n & Hn & Hw).
  split; [exists n; split; assumption|]. split.
  - unfold out. rewrite Hw. cbn [after trace].
    rewrite delete_requests_app, delete_requests_searches, app_nil_r.
    reflexivity.
  - intros Hc. unfold out, lidarr_track_lookup_multi. rewrite Hc. reflexivity.
Qed.

Lemma lookup_only_searches_witness :
  lidarr_track_lookup_multi lidarr_unconfigured
    (Some "Boards of Canada") (Some "Roygbiv") None None empty_world
  = (Ok None, empty_world).
Proof.
  destruct (lookup_only_searches lidarr_unconfigured
              (Some "Boards of Canada") (Some "Roygbiv") None None empty_world)
    as (_ & _ & H).
  apply H. reflexivity.
Defined.

Lemma truthy_append (a b : string) :
  truthy a = true -> truthy (a +:+ b) = true.
Proof. destruct a; [discriminate | reflexivity]. Qed.

Lemma truthy_or_empty (x : option string) :
  truthy_opt x = true -> truthy (or_empty x) = true.
Proof. destruct x; [auto | discriminate]. Qed.

(** The search terms: never an empty one, never more than five. *)
Theorem search_terms_nonempty (artist title album guid : option string) :
  Forall (fun t => truthy t = true) (search_terms artist title album guid) /\
  (length (search_terms artist title album guid) <= 5)%nat.
Proof.
  unfold search_terms. cbv zeta.
  destruct (truthy_opt artist) eqn:Ha, (truthy_opt title) eqn:Ht,
           (truthy_opt album) eqn:Hal, (truthy_opt guid) eqn:Hg;
    cbn [andb app];
    try (destruct (truthy (last_segment (or_empty guid))) eqn:Hs;
         cbn [andb app];
         try match goal with
             | |- context [bool_decide ?P] => destruct (bool_decide P)
             end;
         cbn [negb app]);
    (split; [repeat constructor;
             auto using truthy_append, truthy_or_empty
            | cbn [length]; lia]).
Qed.

(** [purge_with_lidarr] writes no file; what it sends is the searches of
    the lookup and then, when the lookup found a track, one DELETE for
    that track's id as the last request. *)
Theorem purge_requests (env : Env)
    (artist title album guid : option string) (w : World) :
  let out := purge_with_lidarr env artist title album guid w in
  let terms := search_terms artist title album guid in
  liked_json (snd out) = liked_json w /\
  disliked_json (snd out) = disliked_json w /\
  exists n, (n <= length terms)%nat /\
    trace (snd out) =
      trace w ++ map EvSearch (take n terms) ++
      match fst (lidarr_track_lookup_multi env artist title album guid w) with
      | Ok (Some m) => [EvDelete (m_id m)]
      | _ => []
      end.
Proof.
  intros out terms. unfold out. rewrite purge_world.
  destruct (lookup_after env artist title album guid w) as (n & Hn & Hw).
  destruct (fst (lidarr_track_lookup_multi env artist title album guid w))
    as [[m|]|e]; rewrite Hw; cbn [after liked_json disliked_json trace];
    (split; [reflexivity|]; split; [reflexivity|]; exists n;
     split; [exact Hn|]; rewrite <- ?app_assoc, ?app_nil_r; reflexivity).
Qed.

(** The score: between 0 and 7, and a file on disk alone is worth 1, so
    a score that reaches the threshold 2 has a matching text field. *)
Theorem score_reaches_two_on_text (env : Env) (o : hit_object)
    (artist_lower track_lower album_lower : string) (k : Z) :
  _score_lidarr_candidate env (HitObject o)
    artist_lower track_lower album_lower = Ok k ->
  (0 <= k <= 7)%Z /\
  ((2 <= k)%Z <->
   truthy artist_lower &&
     str_in artist_lower (str_lower env (hit_artistName o)) = true \/
   truthy track_lower &&
     str_in track_lower (str_lower env (hit_title o)) = true \/
   exists t, hit_album o = AlbumObject t /\
             truthy album_lower && str_in album_lower (str_lower env t) = true \/
             hit_album o = AlbumAbsent /\
             truthy album_lower &&
               str_in album_lower (str_lower env EmptyString) = true).
Proof.
  unfold _score_lidarr_candidate.
  destruct (hit_album o) as [|t|] eqn:Halb; cbn [bind]; [| |discriminate].
  - destruct (truthy artist_lower &&
              str_in artist_lower (str_lower env (hit_artistName o)));
    destruct (truthy track_lower &&
              str_in track_lower (str_lower env (hit_title o)));
    destruct (truthy album_lower &&
              str_in album_lower (str_lower env EmptyString)) eqn:Hb;
    destruct (hit_hasFile o); intros [= <-];
      (split; [lia|]); split; intros H; try lia; auto;
      try (right; right; exists EmptyString; right; split; reflexivity);
      destruct H as [H|[H|(t & [[H _]|[_ H]])]]; discriminate.
  - destruct (truthy artist_lower &&
              str_in artist_lower (str_lower env (hit_artistName o)));
    destruct (truthy track_lower &&
              str_in track_lower (str_lower env (hit_title o)));
    destruct (truthy album_lower &&
              str_in album_lower (str_lower env t)) eqn:Hb;
    destruct (hit_hasFile o); intros [= <-];
      (split; [lia|]); split; intros H; try lia; auto;
      try (right; right; exists t; left; split; [reflexivity | exact Hb]);
      destruct H as [H|[H|(t' & [[H H']|[H _]])]]; try discriminate;
      injection H as <-; congruence.
Qed.

Lemma score_reaches_two_on_text_witness :
  let env := lidarr_answering (roygbiv AlbumAbsent (Some 42%Z)) in
  _score_lidarr_candidate env (roygbiv AlbumAbsent (Some 42%Z))
    "boards of canada" "roygbiv" "" = Ok 5%Z /\
  (0 <= 5 <= 7)%Z.
Proof.
  intros env. split; [reflexivity|].
  apply (score_reaches_two_on_text env (roygbiv_object AlbumAbsent (Some 42%Z))
           "boards of canada" "roygbiv" "" 5).
  reflexivity.
Defined.

Lemma no_slash_cons (c : ascii) (h : string) :
  Ascii.eqb c "/" = false ->
  str_in "/" h = false ->
  str_in "/" (String c h) = false.
Proof.
  intros Hc Hh. rewrite str_in_unfold.
  destruct (String.prefix "/" (String c h)) eqn:Hp; [|exact Hh].
  apply prefix_app in Hp as [post Hp]. rewrite append_cons in Hp.
  injection Hp as -> _. rewrite Ascii.eqb_refl in Hc. discriminate.
Qed.

(** No segment of a split text holds a slash. *)
Lemma split_slash_no_slash (s : string) :
  Forall (fun t => str_in "/" t = false) (split_slash s).
Proof.
  induction s as [|c t IH]; cbn [split_slash].
  - constructor; [reflexivity | constructor].
  - destruct (Ascii.eqb c "/") eqn:Hc.
    + constructor; [reflexivity | exact IH].
    + destruct (split_slash t) as [|h r].
      * constructor; [|constructor]. apply no_slash_cons; [exact Hc | reflexivity].
      * inversion IH as [|? ? Hh Hr]; subst.
        constructor; [|exact Hr]. apply no_slash_cons; assumption.
Qed.

Theorem guid_tail_has_no_slash (guid_raw : string) :
  str_in "/" (last_segment guid_raw) = false /\
  last_segment "plex://track/5d07cd8e403c640290f6d5f1"
    = "5d07cd8e403c640290f6d5f1"%string /\
  last_segment "plex://track/" = ""%string.
Proof.
  split; [|split; reflexivity].
  unfold last_segment.
  pose proof (split_slash_no_slash guid_raw) as H.
  induction (split_slash guid_raw) as [|h r IH]; [reflexivity|].
  inversion H as [|? ? Hh Hr]; subst.
  destruct r as [|h' r']; [exact Hh | apply IH; exact Hr].
Qed.

End Client_facts.

Section Store_more.
Import Py Lidarr Store.


Lemma normalize_rating_values (val : pynum) :
  Rating._normalize_rating val = None \/
  Rating._normalize_rating val = Some "like"%string \/
  Rating._normalize_rating val = Some "dislike"%string.
Proof.
  unfold Rating._normalize_rating.
  destruct val as [| | |f]; cbn [float_of]; auto.
  destruct (Rating.near f 10 || Rating.near f 5); auto.
  destruct (Rating.near f 2 || Rating.near f 1); auto.
Qed.

(** The harvest worker, for a snapshot with a rating key: it sleeps the
    grace period, then asks for the metadata of that key; the liked file
    changes only on a final like, the disliked file and the library only
    on a final dislike; with no final rating to be had nothing else
    happens. *)
Theorem harvest_effects (env : Env) (session_id : string) (snap : snapshot)
    (w : World) (k : string) :
  ratingKey snap = Some k ->
  truthy k = true ->
  let out := Harvest._harvest_final_rating_for_finished_track
               env session_id snap w in
  let bucket := final_bucket env (trace w) k in
  (exists later,
     trace out = trace w ++ [EvSleep 30; EvMetadata k] ++ later) /\
  (bucket <> Some "like"%string -> liked_json out = liked_json w) /\
  (bucket <> Some "dislike"%string ->
     disliked_json out = disliked_json w /\
     delete_requests (trace out) = delete_requests (trace w)) /\
  (bucket = None -> out = after w [EvSleep 30; EvMetadata k]).
Proof.
  intros Hk Ht out bucket.
  set (w2 := after w [EvSleep 30; EvMetadata k]).
  assert (Hquiet :
    (exists later, trace w2 = trace w ++ [EvSleep 30; EvMetadata k] ++ later) /\
    (bucket <> Some "like"%string -> liked_json w2 = liked_json w) /\
    (bucket <> Some "dislike"%string ->
       disliked_json w2 = disliked_json w /\
       delete_requests (trace w2) = delete_requests (trace w)) /\
    (bucket = None -> w2 = w2)).
  { split; [exists []; reflexivity|]. split; [reflexivity|].
    split; [|reflexivity]. intros _. split; [reflexivity|].
    unfold w2. cbn [after trace]. rewrite delete_requests_app.
    cbn. apply app_nil_r. }
  assert (Hout : out =
    match bucket with
    | None => w2
    | Some b => snd (_act_on_rating env (artist snap) (track snap)
                       (album snap) (guid snap) (Some b) w2)
    end).
  { unfold out, bucket, final_bucket,
      Harvest._harvest_final_rating_for_finished_track.
    rewrite Hk. cbn [truthy_opt or_empty]. rewrite Ht. cbn [negb].
    cbn [log_event trace].
    assert (Hw2 : log_event (EvMetadata k)
                    (log_event (EvSleep Harvest.FINISH_GRACE_SECONDS) w)
                  = w2).
    { unfold w2, after, log_event. cbn [trace liked_json disliked_json].
      rewrite <- app_assoc. reflexivity. }
    rewrite Hw2.
    destruct (metadata_reply env
                (trace w ++ [EvSleep Harvest.FINISH_GRACE_SECONDS]) k)
      as [|status [| |raw]]; [reflexivity | | |].
    - destruct (status =? 200)%Z; reflexivity.
    - destruct (status =? 200)%Z; reflexivity.
    - destruct (status =? 200)%Z; cbn [negb]; [|reflexivity].
      destruct (normalize_rating_values raw) as [E|[E|E]]; rewrite E;
        [|reflexivity|reflexivity].
      unfold _act_on_rating.
      rewrite !bool_decide_eq_false_2 by discriminate. reflexivity. }
  rewrite Hout. clear Hout.
  assert (Hb : bucket = None \/ bucket = Some "like"%string \/
               bucket = Some "dislike"%string).
  { unfold bucket, final_bucket.
    destruct (metadata_reply env
                (trace w ++ [EvSleep Harvest.FINISH_GRACE_SECONDS]) k)
      as [|status [| |raw]]; auto.
    destruct (status =? 200)%Z; auto. apply normalize_rating_values. }
  destruct Hb as [E|[E|E]]; rewrite E in *.
  - destruct Hquiet as (H1 & H2 & H3 & _).
    split; [exact H1|]. split; [exact H2|]. split; [exact H3 | reflexivity].
  - unfold _act_on_rating. rewrite bool_decide_eq_true_2 by reflexivity.
    cbn [snd].
    destruct (add_like_world env (artist snap) (track snap) w2) as [Hd Htr].
    split; [exists [EvSave LIKED_PATH]; rewrite Htr; unfold w2; cbn;
            rewrite <- app_assoc; reflexivity|].
    split; [intros H; congruence|].
    split; [|discriminate]. intros _. split; [rewrite Hd; reflexivity|].
    rewrite Htr. unfold w2. cbn [after trace].
    rewrite !delete_requests_app. cbn. rewrite !app_nil_r. reflexivity.
  - unfold _act_on_rating.
    rewrite bool_decide_eq_false_2 by discriminate.
    rewrite bool_decide_eq_true_2 by reflexivity.
    destruct (add_dislike_world env (artist snap) (track snap) false w2)
      as [Hl Htr].
    destruct (purge_files env (artist snap) (track snap) (album snap)
                (guid snap)
                (add_dislike env (artist snap) (track snap) false w2))
      as (Hpl & _ & later & Hpt).
    destruct (purge_with_lidarr env (artist snap) (track snap) (album snap)
                (guid snap)
                (add_dislike env (artist snap) (track snap) false w2))
      as [[u|e] w3]; cbn [snd] in *;
      (split; [exists (EvSave DISLIKED_PATH :: later); rewrite Hpt, Htr;
               unfold w2; cbn; rewrite <- !app_assoc; reflexivity|];
       split; [intros _; rewrite Hpl, Hl; reflexivity|];
       split; [intros H; congruence | discriminate]).
Qed.

Lemma harvest_effects_witness :
  let env := lidarr_answering (roygbiv AlbumAbsent (Some 42%Z)) in
  let snap := (Poller.observe session_123).2 in
  Harvest._harvest_final_rating_for_finished_track env "123" snap empty_world
    = after empty_world [EvSleep 30; EvMetadata "123"].
Proof.
  intros env snap.
  destruct (harvest_effects env "123" snap empty_world "123"
              eq_refl eq_refl) as (_ & _ & _ & H).
  apply H. reflexivity.
Defined.

End Store_more.

Section Loops_more.
Import Py Watcher.

(** Scanning to the end without interference: every id still to be looked
    at ends up scheduled. *)
Lemma scan_completes (todo : list (string * snapshot)) :
  forall s : state,
    at_pc s = Scanning todo ->
    exists n, (n <= 2 * length todo + 1)%nat /\
      at_pc (run (watcher_alone n) s) = Idle /\
      RECENTLY_FINISHED (run (watcher_alone n) s) = RECENTLY_FINISHED s /\
      (forall sid, sid ∈ todo.*1 ->
                   sid ∈ _FINISHED_ALREADY_SCHEDULED (run (watcher_alone n) s)).
Proof.
  induction todo as [|[sid0 snap0] todo IH]; intros s Hpc.
  - exists 1%nat. split; [simpl; lia|]. cbn [watcher_alone repeat run exec].
    unfold watcher_advance. rewrite Hpc. cbn.
    split; [reflexivity|]. split; [reflexivity|].
    intros sid H. apply elem_of_nil in H as [].
  - destruct (decide (sid0 ∈ _FINISHED_ALREADY_SCHEDULED s)) as [Hin|Hnin].
    + set (s1 := watcher_advance s).
      assert (H1 : s1 = set_pc (Scanning todo) s).
      { unfold s1, watcher_advance. rewrite Hpc.
        rewrite bool_decide_eq_true_2 by exact Hin. reflexivity. }
      destruct (IH s1) as (n & Hn & Hidle & Hrf & Hall);
        [rewrite H1; reflexivity|].
      exists (S n). split; [simpl; lia|].
      cbn [watcher_alone repeat run exec]. fold (watcher_alone n). fold s1.
      split; [exact Hidle|]. split; [rewrite Hrf, H1; reflexivity|].
      intros sid Hsid. cbn [fmap list_fmap fst] in Hsid.
      apply elem_of_cons in Hsid as [->|Hsid]; [|apply Hall; exact Hsid].
      apply scheduled_run. rewrite H1. exact Hin.
    + set (s1 := watcher_advance s).
      assert (H1 : at_pc s1 = Started sid0 todo /\
                   RECENTLY_FINISHED s1 = RECENTLY_FINISHED s).
      { unfold s1, watcher_advance. rewrite Hpc.
        rewrite bool_decide_eq_false_2 by exact Hnin. split; reflexivity. }
      set (s2 := watcher_advance s1).
      assert (H2 : at_pc s2 = Scanning todo /\
                   RECENTLY_FINISHED s2 = RECENTLY_FINISHED s /\
                   sid0 ∈ _FINISHED_ALREADY_SCHEDULED s2).
      { unfold s2, watcher_advance. destruct H1 as [-> H1].
        cbn. split; [reflexivity|]. split; [exact H1|].
        apply elem_of_union. left. apply elem_of_singleton. reflexivity. }
      destruct H2 as (H2a & H2b & H2c).
      destruct (IH s2 H2a) as (n & Hn & Hidle & Hrf & Hall).
      exists (S (S n)). split; [simpl; lia|].
      cbn [watcher_alone repeat run exec]. fold (watcher_alone n).
      fold s1. fold s2.
      split; [exact Hidle|]. split; [rewrite Hrf; exact H2b|].
      intros sid Hsid. cbn [fmap list_fmap fst] in Hsid.
      apply elem_of_cons in Hsid as [->|Hsid]; [|apply Hall; exact Hsid].
      apply scheduled_run. exact H2c.
Qed.

(** Left alone from its sleep, the watcher gives every session found in
    [RECENTLY_FINISHED] a worker: after a bounded number of its steps it
    sleeps again, every such id is marked scheduled, and (the watcher
    having run from the start of the program) each has exactly one
    worker. *)
Theorem uninterrupted_scan_schedules_all (before : list action) :
  let s := run before init in
  at_pc s = Idle ->
  exists n, (n <= 2 * length (RECENTLY_FINISHED s) + 2)%nat /\
    let s' := run (watcher_alone n) s in
    at_pc s' = Idle /\
    (forall sid, sid ∈ (RECENTLY_FINISHED s).*1 ->
       sid ∈ _FINISHED_ALREADY_SCHEDULED s' /\ launches sid s' = 1%nat).
Proof.
  intros s Hidle.
  set (s1 := watcher_advance s).
  assert (H1 : at_pc s1 = Scanning (RECENTLY_FINISHED s) /\
               RECENTLY_FINISHED s1 = RECENTLY_FINISHED s).
  { unfold s1, watcher_advance. rewrite Hidle. split; reflexivity. }
  destruct H1 as [H1a H1b].
  destruct (scan_completes (RECENTLY_FINISHED s) s1 H1a)
    as (n & Hn & Hpc & _ & Hall).
  exists (S n). split; [lia|].
  cbn [watcher_alone repeat run exec]. fold (watcher_alone n). fold s1.
  split; [exact Hpc|].
  intros sid Hsid. split; [apply Hall; exact Hsid|].
  assert (Hrun : run (watcher_alone n) s1 =
                 run (before ++ WatcherAdvances :: watcher_alone n) init).
  { rewrite run_app. reflexivity. }
  pose proof (inv_run (before ++ WatcherAdvances :: watcher_alone n) init
                inv_init) as Hinv.
  rewrite <- Hrun in Hinv. destruct Hinv as [Hnd Hiff].
  rewrite Hpc in Hiff.
  apply (launches_NoDup sid _ Hnd). apply Hiff, Hall, Hsid.
Qed.

Lemma uninterrupted_scan_schedules_all_witness :
  let snap := (Poller.observe session_123).2 in
  let s := run [PollerWrites "123" snap] init in
  exists n, (n <= 4)%nat /\
    "123" ∈ _FINISHED_ALREADY_SCHEDULED (run (watcher_alone n) s) /\
    launches "123" (run (watcher_alone n) s) = 1%nat.
Proof.
  intros snap s.
  destruct (uninterrupted_scan_schedules_all [PollerWrites "123" snap] eq_refl)
    as (n & Hn & _ & Hall).
  exists n. split; [exact Hn|]. apply Hall.
  apply list_elem_of_singleton. reflexivity.
Defined.

End Loops_more.

Section Poller_more.
Import Py Poller.

(** A cycle that does not get through (request failed, status other than
    200, unparsable XML) changes nothing: the next cycle diffs against
    the same set of sessions. *)
Theorem failed_poll_changes_nothing (r : sessions_response) (st : state) :
  listing r = None -> poll_once r st = st.
Proof.
  destruct r as [|status [|tracks]]; simpl; try reflexivity.
  - destruct (status =? 200)%Z; reflexivity.
  - destruct (status =? 200)%Z; [discriminate | reflexivity].
Qed.

Lemma failed_poll_changes_nothing_witness :
  let st := poll_once (ok_listing [session_123]) init in
  poll_once (SessionsHttp 503 (SessionsXml [])) st = st /\
  poll_once SessionsFailed st = st.
Proof.
  intros st.
  split; apply failed_poll_changes_nothing; reflexivity.
Defined.

Lemma mark_ended_lookup (ended : list string)
    (current : gmap string snapshot) :
  forall (finished : gmap string snapshot) (sid : string),
    mark_ended ended current finished !! sid =
    if decide (sid ∈ ended)
    then match current !! sid with
         | Some snap => Some snap
         | None => finished !! sid
         end
    else finished !! sid.
Proof.
  induction ended as [|e rest IH]; intros finished sid.
  - rewrite decide_False by apply not_elem_of_nil. reflexivity.
  - cbn [mark_ended].
    destruct (current !! e) as [snap|] eqn:He; rewrite IH.
    + destruct (decide (sid ∈ rest)) as [Hin|Hnin].
      * rewrite decide_True by (apply elem_of_cons; right; exact Hin).
        destruct (current !! sid) eqn:Hs; [reflexivity|].
        apply lookup_insert_ne. congruence.
      * destruct (decide (sid = e)) as [->|Hne].
        -- rewrite decide_True by (apply elem_of_cons; left; reflexivity).
           rewrite He. apply lookup_insert_eq.
        -- rewrite decide_False
             by (intros H; apply elem_of_cons in H as [H|H]; contradiction).
           apply lookup_insert_ne. congruence.
    + destruct (decide (sid ∈ rest)) as [Hin|Hnin].
      * rewrite decide_True by (apply elem_of_cons; right; exact Hin).
        reflexivity.
      * destruct (decide (sid = e)) as [->|Hne].
        -- rewrite decide_True by (apply elem_of_cons; left; reflexivity).
           rewrite He. reflexivity.
        -- rewrite decide_False
             by (intros H; apply elem_of_cons in H as [H|H]; contradiction).
           reflexivity.
Qed.

(** A cycle that gets through records as finished exactly the sessions
    that were listed in the previous such cycle and are missing from this
    one, each with the snapshot last stored for it; every other entry of
    [RECENTLY_FINISHED] stays as it was. *)
Theorem finished_sessions_recorded (r : sessions_response)
    (tracks : list attrib) (st : state) :
  listing r = Some tracks ->
  forall sid : string,
    RECENTLY_FINISHED (poll_once r st) !! sid =
    if decide (sid ∈ last_active st /\ sid ∉ session_ids tracks)
    then match CURRENT_TRACKS st !! sid with
         | Some snap => Some snap
         | None => RECENTLY_FINISHED st !! sid
         end
    else RECENTLY_FINISHED st !! sid.
Proof.
  intros Hl sid.
  assert (Hr : r = SessionsHttp 200 (SessionsXml tracks)).
  { destruct r as [|status [|tr]]; simpl in Hl; try discriminate.
    destruct (Z.eqb_spec status 200); [congruence | discriminate]. }
  subst r. rewrite poll_once_ok. cbn [RECENTLY_FINISHED].
  destruct (scan_tracks_spec tracks (CURRENT_TRACKS st) ∅) as [Hcur Hseen].
  rewrite mark_ended_lookup, Hcur, Hseen.
  assert (Hended : sid ∈ elements (last_active st ∖
                     (list_to_set (session_ids tracks) ∪ ∅)) <->
                   sid ∈ last_active st /\ sid ∉ session_ids tracks).
  { rewrite elem_of_elements, elem_of_difference, elem_of_union,
      elem_of_list_to_set, elem_of_empty. tauto. }
  destruct (decide (sid ∈ last_active st /\ sid ∉ session_ids tracks))
    as [Hyes|Hno].
  - rewrite decide_True by (apply Hended; exact Hyes).
    destruct Hyes as [_ Hnot].
    destruct (latest sid tracks) as [snap|] eqn:Hlat; [|reflexivity].
    exfalso. apply Hnot, latest_listed. rewrite Hlat. eauto.
  - rewrite decide_False by (rewrite Hended; exact Hno). reflexivity.
Qed.

Lemma finished_sessions_recorded_witness :
  let st := poll_once (ok_listing [session_123]) init in
  RECENTLY_FINISHED (poll_once (ok_listing []) st) !! "123"
    = Some (observe session_123).2.
Proof.
  intros st.
  rewrite (finished_sessions_recorded (ok_listing []) [] st eq_refl "123").
  vm_compute. reflexivity.
Defined.

Lemma truthy_dash (x y : string) : truthy (x +:+ "-" +:+ y) = true.
Proof. destruct x; reflexivity. Qed.

(** The session id of a <Track>: its ratingKey when that is not empty,
    otherwise artist and title joined by a dash, a missing one printed as
    "None"; it is never empty, and the snapshot keeps the ratingKey as it
    came. *)
Theorem session_id_choice (a : attrib) :
  (forall k, a_ratingKey a = Some k -> truthy k = true ->
             (observe a).1 = k) /\
  (truthy_opt (a_ratingKey a) = false ->
   (observe a).1 = str (a_grandparentTitle a) +:+ "-" +:+ str (a_title a)) /\
  truthy (observe a).1 = true /\
  ratingKey (observe a).2 = a_ratingKey a.
Proof.
  unfold observe. cbn [fst snd ratingKey].
  split; [|split; [|split; [|reflexivity]]].
  - intros k Hk Ht. rewrite Hk. cbn [truthy_opt or_empty]. rewrite Ht.
    reflexivity.
  - intros H. rewrite H. reflexivity.
  - destruct (truthy_opt (a_ratingKey a)) eqn:H.
    + destruct (a_ratingKey a) as [k|]; [exact H | discriminate].
    + apply truthy_dash.
Qed.

Lemma session_id_choice_witness :
  (observe bare_track).1 = "None-None"%string /\
  (observe session_123).1 = "123"%string.
Proof.
  destruct (session_id_choice bare_track) as (_ & H & _).
  destruct (session_id_choice session_123) as (H' & _).
  split; [apply H; reflexivity | apply (H' "123"%string); reflexivity].
Defined.

End Poller_more.

Section Lookup_sound.
Import Py Lidarr.
Context (env : Env) (artist_lower track_lower album_lower : string).

Lemma max_from_elem {A} (k : A -> result Z) (rest : list A) :
  forall (best : A) (bk : Z) (b : A),
    max_from k best bk rest = Ok b -> b = best \/ b ∈ rest.
Proof.
  induction rest as [|x rest IH]; intros best bk b; cbn [max_from].
  - intros [= ->]. left. reflexivity.
  - destruct (k x) as [kx|e]; cbn [bind]; [|discriminate].
    destruct (kx >? bk)%Z; intros H; apply IH in H as [->|H];
      rewrite elem_of_cons; tauto.
Qed.

Lemma py_max_elem {A} (k : A -> result Z) (l : list A) (b : A) :
  py_max k l = Ok b -> b ∈ l.
Proof.
  destruct l as [|x rest]; cbn [py_max]; [discriminate|].
  destruct (k x) as [kx|e]; cbn [bind]; [|discriminate].
  intros H. apply max_from_elem in H. rewrite elem_of_cons. exact H.
Qed.

Lemma lookup_term_sound (term : string) (w : World) (m : lidarr_match) :
  fst (lookup_term env artist_lower track_lower album_lower term w)
    = Ok (Some m) ->
  exists results o k,
    results_of (search_reply env (trace w) term) = Some results /\
    py_max (fun h => _score_lidarr_candidate env h
                       artist_lower track_lower album_lower) results
      = Ok (HitObject o) /\
    _score_lidarr_candidate env (HitObject o)
      artist_lower track_lower album_lower = Ok k /\
    (2 <= k)%Z /\
    hit_id o = Some (m_id m) /\
    m_title m = hit_title o /\
    m_artistName m = hit_artistName o.
Proof.
  unfold lookup_term.
  destruct (search_reply env (trace w) term) as [|status body];
    [discriminate|].
  cbn [results_of].
  destruct (Z.eqb_spec status 200) as [->|Hne]; cbn [negb]; [|discriminate].
  destruct body as [| |[|h rest]]; try discriminate. cbn [fst].
  destruct (py_max _ (h :: rest)) as [best|e] eqn:Hmax; cbn [bind];
    [|discriminate].
  destruct (_score_lidarr_candidate env best _ _ _) as [k|e] eqn:Hk;
    cbn [bind]; [|discriminate].
  destruct best as [o|]; cbn [hit_fields bind]; [|discriminate].
  destruct (Z.geb_spec k 2) as [Hge|Hlt]; [|discriminate].
  destruct (hit_id o) as [id|] eqn:Hid; [|discriminate].
  intros [= <-]. exists (h :: rest), o, k. cbn [m_id m_title m_artistName].
  repeat split; try reflexivity; assumption.
Qed.

Lemma loop_sound (terms : list string) :
  forall (w : World) (m : lidarr_match),
    fst (lookup_loop env artist_lower track_lower album_lower terms w)
      = Ok (Some m) ->
    exists i term,
      terms !! i = Some term /\
      fst (lookup_term env artist_lower track_lower album_lower term
             (after w (map EvSearch (take i terms)))) = Ok (Some m) /\
      snd (lookup_loop env artist_lower track_lower album_lower terms w)
        = after w (map EvSearch (take (S i) terms)).
Proof.
  induction terms as [|t0 rest IH]; intros w m; cbn [lookup_loop];
    [discriminate|].
  pose proof (lookup_term_after env artist_lower track_lower album_lower
                t0 w) as Hw1.
  destruct (lookup_term env artist_lower track_lower album_lower t0 w)
    as [r w1] eqn:Hone. cbn [snd] in Hw1. subst w1.
  destruct r as [[m'|]|e]; cbn [fst snd].
  - intros [= ->]. exists 0%nat, t0. split; [reflexivity|].
    cbn [take map]. rewrite after_nil, Hone. split; reflexivity.
  - intros H. destruct (IH _ _ H) as (i & term & Hi & Hfound & Hw).
    exists (S i), term. split; [exact Hi|].
    rewrite after_after in Hfound. rewrite after_after in Hw.
    split; [exact Hfound | exact Hw].
  - discriminate.
Qed.

End Lookup_sound.

Section Client_more.
Import Py Lidarr Store.

(** What [lidarr_track_lookup_multi] returns is a hit Lidarr itself
    listed: the best-scoring hit of the last search sent, with a score of
    at least 2 and the id, title and artist name of that hit. *)
Theorem lookup_returns_a_listed_hit (env : Env)
    (artist title album guid : option string) (w : World) (m : lidarr_match) :
  fst (lidarr_track_lookup_multi env artist title album guid w)
    = Ok (Some m) ->
  let terms := search_terms artist title album guid in
  let score :=
    match_score env (or_empty artist) (or_empty title) (or_empty album) in
  exists i term results o k,
    terms !! i = Some term /\
    results_of (search_reply env (trace w ++ map EvSearch (take i terms)) term)
      = Some results /\
    py_max score results = Ok (HitObject o) /\
    HitObject o ∈ results /\
    score (HitObject o) = Ok k /\
    (2 <= k)%Z /\
    hit_id o = Some (m_id m) /\
    m_title m = hit_title o /\
    m_artistName m = hit_artistName o /\
    snd (lidarr_track_lookup_multi env artist title album guid w)
      = after w (map EvSearch (take (S i) terms)).
Proof.
  intros H terms score. unfold lidarr_track_lookup_multi in H |- *.
  destruct (negb (configured env)); [discriminate|].
  destruct (loop_sound env _ _ _ _ _ _ H) as (i & term & Hi & Hfound & Hw).
  destruct (lookup_term_sound env _ _ _ _ _ _ Hfound)
    as (results & o & k & Hres & Hmax & Hk & Hge & Hid & Ht & Ha).
  exists i, term, results, o, k.
  split; [exact Hi|]. split; [exact Hres|]. split; [exact Hmax|].
  split; [exact (py_max_elem _ _ _ Hmax)|].
  split; [exact Hk|]. split; [exact Hge|]. split; [exact Hid|].
  split; [exact Ht|]. split; [exact Ha | exact Hw].
Qed.

Lemma lookup_returns_a_listed_hit_witness :
  let env := lidarr_answering (roygbiv AlbumAbsent (Some 42%Z)) in
  exists o,
    HitObject o ∈ [roygbiv AlbumAbsent (Some 42%Z)] /\ hit_id o = Some 42%Z.
Proof.
  intros env.
  destruct (lookup_returns_a_listed_hit env
              (Some "Boards of Canada") (Some "Roygbiv") None None empty_world
              {| m_id := 42; m_title := "Roygbiv";
                 m_artistName := "Boards of Canada" |} eq_refl)
    as (i & term & results & o & k & _ & Hres & _ & Hin & _ & _ & Hid & _).
  change (Some [roygbiv AlbumAbsent (Some 42%Z)] = Some results) in Hres.
  injection Hres as <-.
  exists o. split; [exact Hin | exact Hid].
Defined.

(** [add_like] on a liked.json that is missing or cannot be decoded:
    the file is written anew and holds the one entry just made, whatever
    the undecodable file held. *)
Theorem add_like_over_lost_file (env : Env) (artist track : option string)
    (w : World) :
  liked_json w = NoFile \/ liked_json w = Unreadable ->
  liked_json (add_like env artist track w) =
    Json {[ json_key artist :=
              {| l_tracks := [track];
                 l_last_seen := Some (utc_now env (trace w)) |} ]}.
Proof.
  intros H. unfold add_like.
  assert (Hload : _load_json_file (liked_json w) = ∅)
    by (destruct H as [-> | ->]; reflexivity).
  rewrite Hload.
  assert (Hget : dict_get artist (∅ : gmap string like_entry) = None)
    by (destruct artist; [apply lookup_empty | reflexivity]).
  rewrite Hget. cbn [default l_tracks].
  rewrite bool_decide_eq_false_2 by apply not_elem_of_nil.
  cbn [app _save_json_file liked_json]. rewrite insert_empty. reflexivity.
Qed.

Lemma add_like_over_lost_file_witness :
  let env := lidarr_answering (roygbiv AlbumAbsent (Some 42%Z)) in
  liked_tracks (Some "Boards of Canada")
    (liked_json (add_like env (Some "Boards of Canada") (Some "Roygbiv")
                   empty_world))
  = [Some "Roygbiv"].
Proof.
  intros env.
  rewrite (add_like_over_lost_file env (Some "Boards of Canada")
             (Some "Roygbiv") empty_world (or_introl eq_refl)).
  reflexivity.
Defined.


End Client_more.
